(** * ServeStaleCache: a stale-while-revalidate cache over a bounded LRU store

    Shallow embedding of [lib/utils/cache.js] (class [ServeStaleCache]) and of
    the part of the JavaScript run time it relies on: promises with their
    reaction lists, the microtask queue, mutable objects shared between the
    store and the promise callbacks, and the clock behind [_now()]. *)

From Stdlib Require Import ZArith Lia.
From stdpp Require Import base list strings.

Local Open Scope list_scope.

(** ** JavaScript values seen by the cache *)

Definition key := string.
Definition pid := nat.   (* identity of a promise object *)
Definition loc := nat.   (* identity of a cacheRecord object *)

(** What a producer hands back.  The cache only ever tests a result for
    truthiness and reads its [ttl] and [value] properties.  [JObj t v] is an
    object whose [ttl] property is the number [t] (milliseconds; no such
    property when [None]) and whose [value] property is [v] ([JUndefined]
    when it has none). *)
Inductive jsval :=
| JUndefined
| JNull
| JBool (b : bool)
| JNum (n : Z)
| JStr (s : string)
| JObj (ttl : option Z) (value : jsval).

Inductive error :=
| TypeError (msg : string)
| Error (msg : string).

(** [!v] is [negb (truthy v)]. *)
Definition truthy (v : jsval) : bool :=
  match v with
  | JUndefined | JNull => false
  | JBool b => b
  | JNum n => negb (n =? 0)%Z
  | JStr s => negb (String.eqb s "")
  | JObj _ _ => true
  end.

(** [if (x.ttl)]: an absent (undefined) or zero ttl is falsy. *)
Definition truthy_ttl (t : option Z) : bool :=
  match t with
  | Some n => negb (n =? 0)%Z
  | None => false
  end.

(** ** Heap objects *)

Inductive settled :=
| Fulfilled (v : jsval)
| Rejected (e : error).

(** The three functions the cache passes to [then], with the variables each
    closure captures. *)
Inductive callback :=
| OnPopulated (cacheRecord : loc) (now : Z)   (* in [_set]  *)
| OnRefreshed (cacheRecord : loc)             (* in [get], expired branch *)
| InnerValue.                                 (* in [get], [val => val.value] *)

Record reaction := { handler : callback; derived : pid }.

Record promise := { outcome : option settled; reactions : list reaction }.

Record job := { job_handler : callback; job_derived : pid; job_arg : settled }.

Record cacheRecord := { expires : Z; next : option pid; value : option pid }.

(** ** The bounded store *)

Module LRUMap.

(** Modelled from the spec: the bounded store is the [lru-cache] package,
    which the source requires but does not contain.  Section 4.1 of the
    specification: [set] inserts or overwrites and bumps recency, [get]
    returns and bumps recency, [reset] (clear) removes every entry and
    disposes of each, and an insert that would exceed the capacity evicts
    the least recently accessed entry and calls [dispose] with its stored
    value.  [entries] is kept in recency order, most recent first;
    [disposed] logs the arguments of the successive [dispose] calls. *)
Record t := { max : Z; entries : list (key * loc); disposed : list loc }.

(** Modelled from the spec: a store of fixed capacity, empty at first. *)
Definition create (max : Z) : t :=
  {| max := max; entries := []; disposed := [] |}.

(** Modelled from the spec: the stored value of a key, if it has one. *)
Fixpoint find (k : key) (es : list (key * loc)) : option loc :=
  match es with
  | [] => None
  | (k', l) :: es' => if String.eqb k k' then Some l else find k es'
  end.

(** Modelled from the spec: the entries without those of key [k]. *)
Fixpoint remove (k : key) (es : list (key * loc)) : list (key * loc) :=
  match es with
  | [] => []
  | (k', l) :: es' =>
      if String.eqb k k' then remove k es' else (k', l) :: remove k es'
  end.

(** Modelled from the spec: the recency bump; [k] moves to the most
    recently used position, holding [l]. *)
Definition touch (k : key) (l : loc) (m : t) : t :=
  {| max := max m; entries := (k, l) :: remove k (entries m);
     disposed := disposed m |}.

(** Modelled from the spec: [get(key) -> entry | absent] returns and bumps
    recency. *)
Definition get (k : key) (m : t) : option loc * t :=
  match find k (entries m) with
  | Some l => (Some l, touch k l m)
  | None => (None, m)
  end.

(** Modelled from the spec: while the capacity is exceeded the least
    recently accessed entry is evicted and [dispose] is called with its
    stored value. *)
Definition trim (m : t) : t :=
  let n := Z.to_nat (max m) in
  {| max := max m;
     entries := take n (entries m);
     disposed := disposed m ++ reverse (map snd (drop n (entries m))) |}.

(** Modelled from the spec: [set(key, entry)] inserts or overwrites, bumping
    recency. *)
Definition set (k : key) (l : loc) (m : t) : t := trim (touch k l m).

(** Modelled from the spec: [clear()] removes all entries, invoking disposal
    for each. *)
Definition reset (m : t) : t :=
  {| max := max m; entries := [];
     disposed := disposed m ++ reverse (map snd (entries m)) |}.

End LRUMap.

(** ** Producers

    [create] is any caller-supplied function.  It either throws, returns a
    plain value, or returns a new promise of its own, which its owner
    settles later (possibly before any microtask runs, as for a promise
    that is returned already settled). *)
Inductive producer :=
| CreateThrows (e : error)
| CreateReturns (v : jsval)
| CreateAsync.

(** ** Program state *)

Record state := {
  cache : LRUMap.t;             (* this.cache *)
  defaultTTL : Z;               (* this.defaultTTL *)
  clock : Z;                    (* what Date.now() answers *)
  records : list cacheRecord;   (* cacheRecord objects, by identity *)
  promises : list promise;      (* promise objects, by identity *)
  microtasks : list job;        (* pending promise jobs, oldest first *)
  created : list producer       (* the producers called so far, in order *)
}.

Definition with_cache (c : LRUMap.t) (s : state) : state :=
  {| cache := c; defaultTTL := defaultTTL s; clock := clock s;
     records := records s; promises := promises s;
     microtasks := microtasks s; created := created s |}.

Definition with_clock (t : Z) (s : state) : state :=
  {| cache := cache s; defaultTTL := defaultTTL s; clock := t;
     records := records s; promises := promises s;
     microtasks := microtasks s; created := created s |}.

Definition with_records (rs : list cacheRecord) (s : state) : state :=
  {| cache := cache s; defaultTTL := defaultTTL s; clock := clock s;
     records := rs; promises := promises s;
     microtasks := microtasks s; created := created s |}.

Definition with_promises (ps : list promise) (s : state) : state :=
  {| cache := cache s; defaultTTL := defaultTTL s; clock := clock s;
     records := records s; promises := ps;
     microtasks := microtasks s; created := created s |}.

Definition with_microtasks (q : list job) (s : state) : state :=
  {| cache := cache s; defaultTTL := defaultTTL s; clock := clock s;
     records := records s; promises := promises s;
     microtasks := q; created := created s |}.

Definition with_created (cs : list producer) (s : state) : state :=
  {| cache := cache s; defaultTTL := defaultTTL s; clock := clock s;
     records := records s; promises := promises s;
     microtasks := microtasks s; created := cs |}.

(** ** Computations: state passing with exceptions

    A thrown exception keeps the side effects made before it. *)

Inductive completion (A : Type) :=
| Normal (a : A)
| Throw (e : error).
Arguments Normal {A} a.
Arguments Throw {A} e.

Definition M (A : Type) : Type := state -> completion A * state.

Definition ret {A} (a : A) : M A := fun s => (Normal a, s).

Definition throw {A} (e : error) : M A := fun s => (Throw e, s).

Definition bind {A B} (m : M A) (k : A -> M B) : M B :=
  fun s =>
    match m s with
    | (Normal a, s') => k a s'
    | (Throw e, s') => (Throw e, s')
    end.

Definition gets {A} (f : state -> A) : M A := fun s => (Normal (f s), s).

Definition modify (f : state -> state) : M unit := fun s => (Normal tt, f s).

Declare Scope js_scope.
Delimit Scope js_scope with js.
Notation "x <- m ;; k" := (bind m (fun x => k))
  (at level 100, m at next level, right associativity) : js_scope.
Notation "m ;; k" := (bind m (fun _ => k))
  (at level 100, right associativity) : js_scope.
Local Open Scope js_scope.

(** ** Promises *)

Definition jobs_of (o : settled) (rs : list reaction) : list job :=
  map (fun r => {| job_handler := handler r; job_derived := derived r;
                   job_arg := o |}) rs.

(** Settling a pending promise queues one job per registered reaction, in
    registration order; a settled promise stays as it is. *)
Definition settle (p : pid) (o : settled) (s : state) : state :=
  match promises s !! p with
  | Some {| outcome := None; reactions := rs |} =>
      with_microtasks (microtasks s ++ jobs_of o rs)
        (with_promises
           (<[p := {| outcome := Some o; reactions := [] |}]> (promises s)) s)
  | _ => s
  end.

Definition new_promise (o : option settled) : M pid :=
  fun s =>
    (Normal (length (promises s)),
     with_promises (promises s ++ [{| outcome := o; reactions := [] |}]) s).

(** [p.then(cb)]: the derived promise is returned at once; the callback runs
    later, from the microtask queue. *)
Definition then_ (p : pid) (cb : callback) : M pid :=
  d <- new_promise None ;;
  modify (fun s =>
    match promises s !! p with
    | Some {| outcome := None; reactions := rs |} =>
        with_promises
          (<[p := {| outcome := None;
                     reactions := rs ++ [{| handler := cb; derived := d |}] |}]>
             (promises s)) s
    | Some {| outcome := Some o; reactions := _ |} =>
        with_microtasks
          (microtasks s ++
             [{| job_handler := cb; job_derived := d; job_arg := o |}]) s
    | None => s
    end) ;;
  ret d.

(** [Promise.resolve(create())] *)
Definition Promise_resolve_create (create : producer) : M pid :=
  match create with
  | CreateThrows e =>
      modify (fun s => with_created (created s ++ [create]) s) ;;
      throw e
  | CreateReturns v =>
      modify (fun s => with_created (created s ++ [create]) s) ;;
      new_promise (Some (Fulfilled v))
  | CreateAsync =>
      modify (fun s => with_created (created s ++ [create]) s) ;;
      new_promise None
  end.

(** ** The cache *)

Record options := { capacity : option Z; opt_defaultTTL : option Z }.

(** [x || d] on an optional number: absent and zero are both falsy. *)
Definition or_default (x : option Z) (d : Z) : Z :=
  match x with
  | Some n => if (n =? 0)%Z then d else n
  | None => d
  end.

(** [constructor(options)]; [t0] is the clock's reading at that time.  The
    [dispose] option is the callback whose calls [LRUMap.disposed] logs. *)
Definition constructor (opts : option options) (t0 : Z) : state :=
  let capacity := or_default (opts ≫= capacity) 5000 in
  {| cache := LRUMap.create capacity;
     defaultTTL := or_default (opts ≫= opt_defaultTTL) 0;
     clock := t0; records := []; promises := []; microtasks := [];
     created := [] |}.

(** [clear()] *)
Definition clear : M unit :=
  modify (fun s => with_cache (LRUMap.reset (cache s)) s).

Definition _now : M Z := gets clock.

(** [this.cache.get(key)] *)
Definition cache_get (k : key) : M (option loc) :=
  fun s =>
    let (r, c) := LRUMap.get k (cache s) in (Normal r, with_cache c s).

(** [this.cache.set(key, cacheRecord)] *)
Definition cache_set (k : key) (l : loc) : M unit :=
  modify (fun s => with_cache (LRUMap.set k l (cache s)) s).

(** Field writes on a cacheRecord object. *)
Definition set_expires (t : Z) (r : cacheRecord) : cacheRecord :=
  {| expires := t; next := next r; value := value r |}.
Definition set_next (n : option pid) (r : cacheRecord) : cacheRecord :=
  {| expires := expires r; next := n; value := value r |}.
Definition set_value (v : option pid) (r : cacheRecord) : cacheRecord :=
  {| expires := expires r; next := next r; value := v |}.

(** Identities are only ever obtained by allocation, so a read of an unknown
    identity does not occur in a run that starts from [constructor]. *)
Definition read (l : loc) : M cacheRecord :=
  fun s =>
    match records s !! l with
    | Some r => (Normal r, s)
    | None => (Throw (TypeError "no such object"), s)
    end.

Definition update (l : loc) (f : cacheRecord -> cacheRecord) : M unit :=
  modify (fun s => with_records (alter f l (records s)) s).

(** [_set(key, promise)].  The callback closes over the record being built
    and over [now]. *)
Definition _set (k : key) (promise : pid) : M loc :=
  ttl <- gets defaultTTL ;;
  now <- _now ;;
  cacheRecord <- gets (fun s => length (records s)) ;;
  v <- then_ promise (OnPopulated cacheRecord now) ;;
  modify (fun s =>
    with_records
      (records s ++ [{| expires := now + ttl; next := None; value := Some v |}])
      s) ;;
  cache_set k cacheRecord ;;
  ret cacheRecord.

(** [return cacheRecord.value.then((val) => val.value)] *)
Definition return_inner (l : loc) : M pid :=
  r <- read l ;;
  match value r with
  | Some v => then_ v InnerValue
  | None => throw (TypeError "Cannot read property 'then' of null")
  end.

(** [get(key, create)] *)
Definition get (k : key) (create : producer) : M pid :=
  found <- cache_get k ;;
  match found with
  | None =>
      p <- Promise_resolve_create create ;;
      cacheRecord <- _set k p ;;
      return_inner cacheRecord
  | Some cacheRecord =>
      now <- _now ;;
      r <- read cacheRecord ;;
      (if (expires r <? now)%Z then
         p <- Promise_resolve_create create ;;
         update cacheRecord (set_next (Some p)) ;;
         r' <- read cacheRecord ;;
         match next r' with
         | Some n => _ <- then_ n (OnRefreshed cacheRecord) ;; ret tt
         | None => throw (TypeError "Cannot read property 'then' of null")
         end
       else ret tt) ;;
      return_inner cacheRecord
  end.

(** Property reads [val.ttl] and [val.value]: reading a property of
    [undefined] or [null] throws; a primitive has neither property. *)
Definition prop_ttl (val : jsval) : M (option Z) :=
  match val with
  | JUndefined | JNull =>
      throw (TypeError "Cannot read property 'ttl' of undefined")
  | JObj t _ => ret t
  | _ => ret None
  end.

Definition prop_value (val : jsval) : M jsval :=
  match val with
  | JUndefined | JNull =>
      throw (TypeError "Cannot read property 'value' of undefined")
  | JObj _ v => ret v
  | _ => ret JUndefined
  end.

(** The body of each callback, applied to the value its promise was
    fulfilled with. *)
Definition run_callback (cb : callback) (val : jsval) : M jsval :=
  match cb with
  | OnPopulated cacheRecord now =>
      t <- prop_ttl val ;;
      (if truthy_ttl t
       then update cacheRecord (set_expires (now + default 0%Z t))
       else ret tt) ;;
      ret val
  | OnRefreshed cacheRecord =>
      if negb (truthy val) then
        throw (Error "Cacheable item should return an object with at least a `value` property")
      else
        r <- read cacheRecord ;;
        update cacheRecord (set_value (next r)) ;;
        update cacheRecord (set_next None) ;;
        dflt <- gets defaultTTL ;;
        t <- prop_ttl val ;;
        let _ttl := if truthy_ttl t then default 0%Z t else dflt in
        now <- _now ;;
        update cacheRecord (set_expires (now + _ttl)) ;;
        ret JUndefined
  | InnerValue => prop_value val
  end.

(** One promise job.  No callback of the cache handles a rejection, so a
    rejection passes on to the derived promise. *)
Definition run_job (j : job) (s : state) : state :=
  match job_arg j with
  | Rejected e => settle (job_derived j) (Rejected e) s
  | Fulfilled v =>
      match run_callback (job_handler j) v s with
      | (Normal w, s') => settle (job_derived j) (Fulfilled w) s'
      | (Throw e, s') => settle (job_derived j) (Rejected e) s'
      end
  end.

(** Run queued jobs, oldest first, at most [fuel] of them. *)
Fixpoint run_microtasks (fuel : nat) (s : state) : state :=
  match fuel with
  | O => s
  | S fuel' =>
      match microtasks s with
      | [] => s
      | j :: q => run_microtasks fuel' (run_job j (with_microtasks q s))
      end
  end.

(** The clock advances by [dt]. *)
Definition tick (dt : Z) (s : state) : state := with_clock (clock s + dt) s.

(** ** Observations *)

Definition promise_state (s : state) (p : pid) : option settled :=
  promises s !! p ≫= outcome.

Definition stored (s : state) (k : key) : option loc :=
  LRUMap.find k (LRUMap.entries (cache s)).



(** The record stored under a key, if any. *)
Definition entry (s : state) (k : key) : option cacheRecord :=
  stored s k ≫= (records s !!.).

(** The state of the promise an entry holds as its [value]. *)
Definition held (s : state) (k : key) : option settled :=
  match entry s k with
  | Some {| value := Some v |} => promise_state s v
  | _ => None
  end.

(** What a lookup resolves to when the cached result is [v]. *)
Definition inner (v : jsval) : jsval :=
  match v with
  | JObj _ w => w
  | _ => JUndefined
  end.

Definition nullish (v : jsval) : bool :=
  match v with
  | JUndefined | JNull => true
  | _ => false
  end.

(** The [ttl] property of a result other than [undefined] and [null]. *)
Definition field_ttl (v : jsval) : option Z :=
  match v with
  | JObj t _ => t
  | _ => None
  end.

(** The time to live in force for a result: its own when truthy, else the
    default. *)
Definition ttl_of (dflt : Z) (v : jsval) : Z :=
  if truthy_ttl (field_ttl v) then default 0%Z (field_ttl v) else dflt.

(** How a producer call ends: [answers create o] when the promise made from
    the call can settle as [o]. *)
Definition answers (create : producer) (o : settled) : Prop :=
  match create with
  | CreateThrows _ => False
  | CreateReturns v => o = Fulfilled v
  | CreateAsync => True
  end.

(** The caller's share of a producer call: the promise [p] of an asynchronous
    producer is settled as [o]; for the other producers nothing is left to be
    done. *)
Definition complete (create : producer) (p : pid) (o : settled)
    (s : state) : state :=
  match create with
  | CreateAsync => settle p o s
  | _ => s
  end.

(** A lookup whose result is dropped. *)
Definition lookup_ (k : key) (create : producer) (s : state) : state :=
  snd (get k create s).

(** Whether a producer throws instead of returning. *)
Definition throws (create : producer) : bool :=
  match create with
  | CreateThrows _ => true
  | _ => false
  end.

(** Successive lookups, their results dropped. *)
Fixpoint lookups (ks : list (key * producer)) (s : state) : state :=
  match ks with
  | [] => s
  | (k, create) :: ks' => lookups ks' (lookup_ k create s)
  end.

(** The store entries made by inserting the keys [ks] one after the other,
    the first of them with the record [base]; oldest first. *)
Fixpoint numbered (base : nat) (ks : list key) : list (key * loc) :=
  match ks with
  | [] => []
  | k :: ks' => (k, base) :: numbered (S base) ks'
  end.

(** A cache made with no options at time 0, the value of the repository's
    first test ("should create a new value if not in cache"), and an error
    for producers that fail. *)
Definition new_cache : state := constructor None 0.
Definition first_value : jsval := JObj None (JStr "CachedValue").
Definition boom : error := Error "boom".

(** The values of the repository's test ("should serve stale content, and
    rebuild in background"), and its cache after the first lookup has been
    answered: the entry for ["id_q"] is the record 0, it holds the promise 1
    and expires at time 100. *)
Definition cached_value : jsval := JObj (Some 100%Z) (JStr "CachedValue").
Definition new_value : jsval := JObj (Some 100%Z) (JStr "NewValue").
Definition final_value : jsval := JObj (Some 100%Z) (JStr "FinalValue").

Definition populated : state :=
  run_microtasks 3
    (lookup_ "id_q" (CreateReturns cached_value) new_cache).

Definition stale_record : cacheRecord :=
  {| expires := 100; next := None; value := Some 1 |}.

(** The test's cache at time 101, as in the test, and at time 100. *)
Definition stale : state := tick 101 populated.
Definition at_expiry : state := tick 100 populated.

(** ** Well-formed states

    The conditions under which no identity dangles: what the store, the
    records, the reactions and the queued jobs name has been allocated.
    [nr] and [np] are the numbers of records and of promises allocated so
    far. *)

Definition callback_ok (nr : nat) (cb : callback) : Prop :=
  match cb with
  | OnPopulated l _ | OnRefreshed l => l < nr
  | InnerValue => True
  end.

Definition pid_ok (np : nat) (o : option pid) : Prop :=
  match o with
  | Some p => p < np
  | None => True
  end.

Definition record_ok (np : nat) (r : cacheRecord) : Prop :=
  pid_ok np (value r) /\ pid_ok np (next r).

Definition reaction_ok (nr np : nat) (r : reaction) : Prop :=
  callback_ok nr (handler r) /\ derived r < np.

Definition job_ok (nr np : nat) (j : job) : Prop :=
  callback_ok nr (job_handler j) /\ job_derived j < np.

(** A settled promise has handed its reactions over to the job queue. *)
Definition promise_ok (nr np : nat) (p : promise) : Prop :=
  Forall (reaction_ok nr np) (reactions p) /\
  (is_Some (outcome p) -> reactions p = []).

(** The store holds each key once, distinct keys hold distinct records, and
    a store of positive capacity is not over it. *)
Definition store_ok (nr : nat) (m : LRUMap.t) : Prop :=
  Forall (fun kl => kl.2 < nr) (LRUMap.entries m) /\
  NoDup (LRUMap.entries m).*1 /\
  NoDup (LRUMap.entries m).*2 /\
  ((0 < LRUMap.max m)%Z ->
   length (LRUMap.entries m) <= Z.to_nat (LRUMap.max m)).

Record wf (s : state) : Prop := {
  wf_store : store_ok (length (records s)) (cache s);
  wf_records : Forall (record_ok (length (promises s))) (records s);
  wf_promises :
    Forall (promise_ok (length (records s)) (length (promises s)))
      (promises s);
  wf_microtasks :
    Forall (job_ok (length (records s)) (length (promises s))) (microtasks s)
}.

(** ** Runs

    What can happen to a cache: a call of [get] (whether it returns or
    throws) or of [clear], the settling of a promise by its owner, one
    promise job, and the clock moving. *)
Inductive step : state -> state -> Prop :=
| step_get k create s : step s (snd (get k create s))
| step_clear s : step s (snd (clear s))
| step_settle p o s : step s (settle p o s)
| step_job j q s :
    microtasks s = j :: q -> step s (run_job j (with_microtasks q s))
| step_tick dt s : step s (tick dt s).

(** The states of a cache constructed with the options [opts]. *)
Inductive reachable (opts : option options) : state -> Prop :=
| reachable_new t0 : reachable opts (constructor opts t0)
| reachable_step s s' : reachable opts s -> step s s' -> reachable opts s'.

(** A computation that leaves the observation [f] of the state as it was. *)
Definition keeps {A B} (f : state -> A) (m : M B) : Prop :=
  forall s, f (snd (m s)) = f s.

(** The cache of the specification's scenario, capacity 2 and a default
    time to live of 100 ms, after lookups of the keys a and b. *)
Definition two_keys_options : option options :=
  Some {| capacity := Some 2%Z; opt_defaultTTL := Some 100%Z |}.

Definition two_keys : state :=
  lookup_ "b" (CreateReturns (JObj None (JStr "B")))
    (lookup_ "a" (CreateReturns (JObj None (JStr "A")))
       (constructor two_keys_options 0)).

(** ** The metadata processor's content-type test

    The producers that the metadata route passes to the cache run the
    processor ([./processor] there), which tells JSON and HTML responses
    apart with [isType(header, type)], that is [header.indexOf(type) > -1]. *)
Module Processor.

(** [s.indexOf(t)]: the position of the first occurrence of [t] in [s],
    and -1 when there is none. *)
Definition indexOf (s t : string) : Z :=
  match String.index 0 t s with
  | Some n => Z.of_nat n
  | None => -1
  end.

(** [isType(header, type)] *)
Definition isType (header type : string) : bool :=
  (indexOf header type >? -1)%Z.

End Processor.

(** * Reasoning support *)

(** Objects are allocated at the end of their list; these equations evaluate
    reads and writes at identities counted from the length of a base list. *)
Section Alloc.
Context {A : Type}.
Implicit Types (l k : list A) (x y : A).

Lemma lookup_alloc l k i : (l ++ k) !! (length l + i) = k !! i.
Proof. rewrite lookup_app_r by lia. f_equal. lia. Qed.

Lemma lookup_alloc0 l k : (l ++ k) !! length l = k !! 0.
Proof. rewrite <- (Nat.add_0_r (length l)) at 1. apply lookup_alloc. Qed.

Lemma lookup_old l k i x : l !! i = Some x -> (l ++ k) !! i = Some x.
Proof. intros H. rewrite lookup_app_l; [done | by eapply lookup_lt_Some]. Qed.

Lemma insert_alloc l k i x : <[length l + i := x]> (l ++ k) = l ++ <[i := x]> k.
Proof. apply insert_app_r. Qed.

Lemma insert_alloc0 l k x : <[length l := x]> (l ++ k) = l ++ <[0 := x]> k.
Proof. rewrite <- (Nat.add_0_r (length l)) at 1. apply insert_alloc. Qed.

Lemma insert_old l k i x y :
  l !! i = Some y -> <[i := x]> (l ++ k) = <[i := x]> l ++ k.
Proof. intros H. apply insert_app_l. by eapply lookup_lt_Some. Qed.

Lemma alter_alloc (f : A -> A) l k i :
  alter f (length l + i) (l ++ k) = l ++ alter f i k.
Proof.
  induction l as [|a l IH]; [done|].
  cbn. f_equal. exact IH.
Qed.

Lemma alter_alloc0 (f : A -> A) l k :
  alter f (length l) (l ++ k) = l ++ alter f 0 k.
Proof. rewrite <- (Nat.add_0_r (length l)) at 1. apply alter_alloc. Qed.

Lemma alter_old (f : A -> A) l k i y :
  l !! i = Some y -> alter f i (l ++ k) = alter f i l ++ k.
Proof.
  revert i; induction l as [|a l IH]; intros [|i] H; try done.
  cbn. f_equal. exact (IH i H).
Qed.

(** Writes to an object that existed before the run started. *)
Lemma alter_known (f : A -> A) l k i y :
  l !! i = Some y -> alter f i (l ++ k) = <[i := f y]> l ++ k.
Proof.
  revert i; induction l as [|a l IH]; intros [|i] H; try done.
  - cbn in *. congruence.
  - cbn. f_equal. exact (IH i H).
Qed.

Lemma alter_written (f : A -> A) l k i x y :
  l !! i = Some y -> alter f i (<[i := x]> l ++ k) = <[i := f x]> l ++ k.
Proof.
  revert i; induction l as [|a l IH]; intros [|i] H; try done.
  cbn. f_equal. exact (IH i H).
Qed.

Lemma lookup_written l k i x y :
  l !! i = Some y -> (<[i := x]> l ++ k) !! i = Some x.
Proof.
  intros H. apply lookup_old, list_lookup_insert_eq. by eapply lookup_lt_Some.
Qed.

Lemma alter_known_nil (f : A -> A) l i y :
  l !! i = Some y -> alter f i l = <[i := f y]> l.
Proof.
  intros H. rewrite <- (app_nil_r l) at 1.
  rewrite (alter_known f l [] i y H). apply app_nil_r.
Qed.

Lemma alter_written_nil (f : A -> A) l i x y :
  l !! i = Some y -> alter f i (<[i := x]> l) = <[i := f x]> l.
Proof.
  intros H. rewrite <- (app_nil_r (<[i := x]> l)).
  rewrite (alter_written f l [] i x y H). apply app_nil_r.
Qed.

Lemma lookup_written_nil l i x y :
  l !! i = Some y -> <[i := x]> l !! i = Some x.
Proof. intros H. apply list_lookup_insert_eq. by eapply lookup_lt_Some. Qed.

(** Reads and writes next to a written object. *)
Lemma insert_written l k i x y z :
  l !! i = Some z -> <[i := y]> (<[i := x]> l ++ k) = <[i := y]> l ++ k.
Proof.
  intros H. apply lookup_lt_Some in H.
  rewrite insert_app_l by (by rewrite length_insert).
  by rewrite list_insert_insert_eq.
Qed.

Lemma lookup_alloc_w l k i j x : (<[j := x]> l ++ k) !! (length l + i) = k !! i.
Proof. rewrite <- (length_insert l j x). apply lookup_alloc. Qed.

Lemma lookup_alloc0_w l k j x : (<[j := x]> l ++ k) !! length l = k !! 0.
Proof. rewrite <- (length_insert l j x). apply lookup_alloc0. Qed.

Lemma insert_alloc_w l k i j x y :
  <[length l + i := y]> (<[j := x]> l ++ k) = <[j := x]> l ++ <[i := y]> k.
Proof. rewrite <- (length_insert l j x) at 1. apply insert_alloc. Qed.

Lemma insert_alloc0_w l k j x y :
  <[length l := y]> (<[j := x]> l ++ k) = <[j := x]> l ++ <[0 := y]> k.
Proof. rewrite <- (length_insert l j x) at 1. apply insert_alloc0. Qed.

Lemma snoc_snoc l k k' : (l ++ k) ++ k' = l ++ (k ++ k').
Proof. symmetry; apply app_assoc. Qed.

Lemma length_alloc l k : length (l ++ k) = length l + length k.
Proof. apply length_app. Qed.
End Alloc.

Module LRUMapFacts.
Import LRUMap.

Lemma get_found k l m :
  find k (entries m) = Some l -> get k m = (Some l, touch k l m).
Proof. intros H. unfold get. by rewrite H. Qed.

Lemma get_missing k m : find k (entries m) = None -> get k m = (None, m).
Proof. intros H. unfold get. by rewrite H. Qed.

Lemma find_touch k l m : find k (entries (touch k l m)) = Some l.
Proof. cbn. by rewrite String.eqb_refl. Qed.

Lemma find_remove_ne k k' es : k <> k' -> find k' (remove k es) = find k' es.
Proof.
  intros Hne. induction es as [|[k0 l0] es IH]; cbn; [done|].
  destruct (String.eqb_spec k k0) as [->|Hk].
  - rewrite IH. destruct (String.eqb_spec k' k0); congruence.
  - cbn. by rewrite IH.
Qed.

Lemma find_touch_ne k k' l m :
  k <> k' -> find k' (entries (touch k l m)) = find k' (entries m).
Proof.
  intros Hne. cbn. destruct (String.eqb_spec k' k); [congruence|].
  by apply find_remove_ne.
Qed.

Lemma find_set k l m :
  (1 <= max m)%Z -> find k (entries (set k l m)) = Some l.
Proof.
  intros Hmax. unfold set, trim. cbn.
  destruct (Z.to_nat (max m)) as [|n] eqn:Hn; [lia|].
  cbn. by rewrite String.eqb_refl.
Qed.

Lemma max_touch k l m : max (touch k l m) = max m.
Proof. done. Qed.

Lemma max_set k l m : max (set k l m) = max m.
Proof. done. Qed.
Lemma find_None k es : find k es = None <-> k ∉ es.*1.
Proof.
  induction es as [|[k' l'] es IH]; cbn.
  - split; [intros _; apply not_elem_of_nil | done].
  - rewrite not_elem_of_cons. destruct (String.eqb_spec k k') as [->|Hne].
    + split; [done | by intros [? _]].
    + rewrite IH. tauto.
Qed.

Lemma remove_absent k es : find k es = None -> remove k es = es.
Proof.
  induction es as [|[k' l'] es IH]; cbn; [done|].
  destruct (String.eqb_spec k k'); [done|]. intros H. by rewrite IH.
Qed.

Lemma set_absent k l m :
  find k (entries m) = None ->
  set k l m =
    {| max := max m;
       entries := take (Z.to_nat (max m)) ((k, l) :: entries m);
       disposed :=
         disposed m ++
         reverse (map snd (drop (Z.to_nat (max m)) ((k, l) :: entries m))) |}.
Proof. intros H. unfold set, trim, touch. cbn. by rewrite remove_absent. Qed.

End LRUMapFacts.

Lemma run_microtasks_idle fuel s :
  microtasks s = [] -> run_microtasks fuel s = s.
Proof. intros H. destruct fuel; cbn; [done|]. by rewrite H. Qed.

Lemma run_microtasks_next fuel s j q :
  microtasks s = j :: q ->
  run_microtasks (S fuel) s = run_microtasks fuel (run_job j (with_microtasks q s)).
Proof. intros H. cbn. by rewrite H. Qed.

(** ** Symbolic execution

    The operations are kept folded and are unfolded one at a time, in
    program order, each on a state that has already been evaluated to a
    record of fields; reads and writes of the heap lists are then
    resolved by the equations above. *)

Arguments LRUMap.touch : simpl never.
Arguments LRUMap.set : simpl never.
Arguments LRUMap.trim : simpl never.
Arguments get : simpl never.
Arguments settle : simpl never.
Arguments run_job : simpl never.
Arguments run_microtasks : simpl never.
Arguments tick : simpl never.
Arguments complete : simpl never.
Arguments bind : simpl never.
Arguments ret : simpl never.
Arguments throw : simpl never.
Arguments gets : simpl never.
Arguments modify : simpl never.
Arguments new_promise : simpl never.
Arguments then_ : simpl never.
Arguments read : simpl never.
Arguments update : simpl never.
Arguments cache_get : simpl never.
Arguments cache_set : simpl never.
Arguments _now : simpl never.
Arguments _set : simpl never.
Arguments return_inner : simpl never.
Arguments Promise_resolve_create : simpl never.
Arguments run_callback : simpl never.
Arguments prop_ttl : simpl never.
Arguments prop_value : simpl never.
Arguments clear : simpl never.

Create HintDb lru discriminated.
#[export] Hint Resolve LRUMapFacts.find_touch LRUMapFacts.find_set : lru.

Lemma snoc_neq {A} (l : list A) (x : A) : l <> l ++ [x].
Proof.
  intros H. apply (f_equal length) in H. rewrite length_app in H. cbn in H. lia.
Qed.

Lemma prop_value_ok v s :
  nullish v = false -> prop_value v s = (Normal (inner v), s).
Proof. by destruct v. Qed.

Lemma prop_ttl_ok v s :
  nullish v = false -> prop_ttl v s = (Normal (field_ttl v), s).
Proof. by destruct v. Qed.

Lemma truthy_not_nullish v : truthy v = true -> nullish v = false.
Proof. by destruct v. Qed.

Lemma promise_state_inv s p o :
  promise_state s p = Some o ->
  exists rs, promises s !! p = Some {| outcome := Some o; reactions := rs |}.
Proof.
  unfold promise_state. destruct (promises s !! p) as [[o' rs]|]; [|done].
  cbn. intros ->. by exists rs.
Qed.

Lemma default_or_ttl dflt v :
  (if truthy_ttl (field_ttl v) then default 0%Z (field_ttl v) else dflt)
  = ttl_of dflt v.
Proof. done. Qed.

Ltac decide_ltb :=
  match goal with
  | |- context [(?a <? ?b)%Z] =>
      first [ rewrite (proj2 (Z.ltb_lt a b)) by lia
            | rewrite (proj2 (Z.ltb_ge a b)) by lia ]
  | |- context [(?a =? ?b)%Z] =>
      first [ rewrite (proj2 (Z.eqb_eq a b)) by lia
            | rewrite (proj2 (Z.eqb_neq a b)) by lia ]
  end.

(** A state is evaluated when it is a record of fields. *)
Ltac is_value s :=
  lazymatch s with
  | Build_state _ _ _ _ _ _ _ => idtac
  end.

Ltac expose op e :=
  let t := eval cbv beta delta [op] in e in change e with t.

(** Evaluate one operation whose input state is evaluated: the operations
    run in program order. *)
Ltac op_step :=
  match goal with
  | |- context [@bind ?A ?B ?m ?f ?s] =>
      is_value s; expose @bind (@bind A B m f s)
  | |- context [@ret ?A ?a ?s] => is_value s; expose @ret (@ret A a s)
  | |- context [@throw ?A ?e ?s] => is_value s; expose @throw (@throw A e s)
  | |- context [@gets ?A ?f ?s] => is_value s; expose @gets (@gets A f s)
  | |- context [modify ?f ?s] => is_value s; expose modify (modify f s)
  | |- context [with_cache ?x ?s] =>
      is_value s; expose with_cache (with_cache x s)
  | |- context [with_clock ?x ?s] =>
      is_value s; expose with_clock (with_clock x s)
  | |- context [with_records ?x ?s] =>
      is_value s; expose with_records (with_records x s)
  | |- context [with_promises ?x ?s] =>
      is_value s; expose with_promises (with_promises x s)
  | |- context [with_microtasks ?x ?s] =>
      is_value s; expose with_microtasks (with_microtasks x s)
  | |- context [with_created ?x ?s] =>
      is_value s; expose with_created (with_created x s)
  | |- context [new_promise ?o ?s] =>
      is_value s; expose new_promise (new_promise o s)
  | |- context [then_ ?p ?c ?s] => is_value s; expose then_ (then_ p c s)
  | |- context [read ?l ?s] => is_value s; expose read (read l s)
  | |- context [update ?l ?f ?s] => is_value s; expose update (update l f s)
  | |- context [cache_get ?k ?s] => is_value s; expose cache_get (cache_get k s)
  | |- context [cache_set ?k ?l ?s] =>
      is_value s; expose cache_set (cache_set k l s)
  | |- context [_now ?s] => is_value s; expose _now (_now s)
  | |- context [_set ?k ?p ?s] => is_value s; expose _set (_set k p s)
  | |- context [return_inner ?l ?s] =>
      is_value s; expose return_inner (return_inner l s)
  | |- context [Promise_resolve_create ?c ?s] =>
      is_value s;
      expose Promise_resolve_create (Promise_resolve_create c s)
  | |- context [prop_ttl ?v ?s] =>
      is_value s;
      first [ rewrite (prop_ttl_ok v s) by auto using truthy_not_nullish
            | expose prop_ttl (prop_ttl v s) ]
  | |- context [prop_value ?v ?s] =>
      is_value s;
      first [ rewrite (prop_value_ok v s) by auto using truthy_not_nullish
            | expose prop_value (prop_value v s) ]
  | |- context [run_callback ?c ?v ?s] =>
      is_value s; expose run_callback (run_callback c v s)
  | |- context [get ?k ?c ?s] => is_value s; expose get (get k c s)
  | |- context [settle ?p ?o ?s] => is_value s; expose settle (settle p o s)
  | |- context [complete ?c ?p ?o ?s] =>
      is_value s; expose complete (complete c p o s)
  | |- context [run_job ?j ?s] => is_value s; expose run_job (run_job j s)
  | |- context [tick ?d ?s] => is_value s; expose tick (tick d s)
  | |- context [run_microtasks (S ?f) ?s] =>
      is_value s; erewrite (run_microtasks_next f s) by reflexivity
  | |- context [run_microtasks ?f ?s] =>
      is_value s; rewrite (run_microtasks_idle f s) by reflexivity
  end.

Ltac heap_step :=
  first
    [ rewrite snoc_snoc
    | rewrite length_alloc
    | rewrite lookup_alloc
    | rewrite lookup_alloc0
    | rewrite insert_alloc
    | rewrite insert_alloc0
    | rewrite alter_alloc
    | rewrite alter_alloc0
    | rewrite length_insert
    | rewrite lookup_alloc_w
    | rewrite lookup_alloc0_w
    | rewrite insert_alloc_w
    | rewrite insert_alloc0_w
    | erewrite insert_written by eassumption
    | erewrite insert_old by eassumption
    | erewrite lookup_written by eassumption
    | erewrite lookup_written_nil by eassumption
    | erewrite lookup_old by eassumption
    | erewrite alter_written by eassumption
    | erewrite alter_written_nil by eassumption
    | erewrite alter_known by eassumption
    | erewrite alter_known_nil by eassumption
    | erewrite LRUMapFacts.get_found by eauto with lru
    | erewrite LRUMapFacts.get_missing by eassumption
    | rewrite LRUMapFacts.max_touch
    | rewrite LRUMapFacts.max_set
    | rewrite LRUMapFacts.find_touch
    | rewrite LRUMapFacts.find_set by (rewrite ?LRUMapFacts.max_touch; assumption)
    | rewrite default_or_ttl
    | decide_ltb
    | match goal with H : _ = _ |- _ => rewrite H end ].

Ltac exec := repeat first [ progress cbn | op_step | heap_step ].

(** Replace an expression of the goal by its value. *)
Ltac evaluate e :=
  let H := fresh "Heval" in
  eassert (H : e = _) by (exec; reflexivity);
  rewrite H; clear H.

(** Evaluate the operations of a goal in program order. *)
Ltac run_step :=
  match goal with
  | |- context [get ?k ?c ?s] => is_value s; evaluate (get k c s)
  | |- context [lookup_ ?k ?c ?s] =>
      is_value s; change (lookup_ k c s) with (snd (get k c s))
  | |- context [settle ?p ?o ?s] => is_value s; evaluate (settle p o s)
  | |- context [complete ?c ?p ?o ?s] =>
      is_value s; evaluate (complete c p o s)
  | |- context [tick ?d ?s] => is_value s; evaluate (tick d s)
  | |- context [run_microtasks ?f ?s] =>
      is_value s; evaluate (run_microtasks f s)
  end.

Ltac run := repeat first [ progress cbv beta iota zeta | run_step ].

Ltac observe := unfold held, entry, stored, promise_state; exec.

Ltac returned := eexists; split; [reflexivity|].

Ltac finish :=
  repeat match goal with |- _ /\ _ => split end;
  intros; try returned; observe; rewrite ?app_nil_r; try done.

Ltac burn fuel := repeat (destruct fuel as [|fuel]; [lia|]).

(** The shapes of a result that the callbacks tell apart. *)
Ltac cases_jsval v :=
  let t := fresh "t" in
  destruct v as [| | ? | ? | ? | [t|] ?];
  [ | | | | | destruct (Z.eq_dec t 0%Z) | ].

Ltac cases_nullish v :=
  destruct (nullish v) eqn:?; [destruct v; try discriminate|].


(** ** Facts about runs of lookups *)

Local Arguments reverse : simpl never.

Lemma numbered_keys base ks : (numbered base ks).*1 = ks.
Proof. revert base; induction ks as [|k ks IH]; intros; cbn; [done|]. by rewrite IH. Qed.

Lemma numbered_length base ks : length (numbered base ks) = length ks.
Proof. revert base; induction ks as [|k ks IH]; intros; cbn; [done|]. by rewrite IH. Qed.

Lemma numbered_snoc base ks k :
  numbered base (ks ++ [k]) = numbered base ks ++ [(k, base + length ks)].
Proof.
  revert base; induction ks as [|k' ks IH]; intros base; cbn.
  - by rewrite Nat.add_0_r.
  - rewrite IH. by rewrite Nat.add_succ_comm.
Qed.

Lemma cold_miss_store s k create :
  stored s k = None -> throws create = false ->
  cache (lookup_ k create s) = LRUMap.set k (length (records s)) (cache s) /\
  length (records (lookup_ k create s)) = S (length (records s)).
Proof.
  intros Hk Hc. destruct s as [c dflt clk rs ps q cr]; unfold stored in *; cbn in *.
  destruct create as [?|?|]; [done| |]; run; cbn; rewrite length_app; cbn; split; try done; lia.
Qed.

Lemma lookups_snoc ks k create s :
  lookups (ks ++ [(k, create)]) s = lookup_ k create (lookups ks s).
Proof.
  revert s; induction ks as [|[k' c'] ks IH]; intros s; cbn; [done|]. apply IH.
Qed.

(** Insertions of new keys into a store with room left evict nothing. *)
Lemma lookups_fill ks : forall s,
  NoDup ks.*1 ->
  (forall k, k ∈ ks.*1 -> stored s k = None) ->
  Forall (fun kc => throws kc.2 = false) ks ->
  length (LRUMap.entries (cache s)) + length ks <= Z.to_nat (LRUMap.max (cache s)) ->
  LRUMap.entries (cache (lookups ks s)) =
    reverse (numbered (length (records s)) ks.*1) ++ LRUMap.entries (cache s) /\
  LRUMap.disposed (cache (lookups ks s)) = LRUMap.disposed (cache s) /\
  LRUMap.max (cache (lookups ks s)) = LRUMap.max (cache s) /\
  length (records (lookups ks s)) = length (records s) + length ks.
Proof.
  induction ks as [|[k c] ks IH]; intros s Hnd Hnew Hok Hroom;
    cbn in Hnd, Hnew, Hok, Hroom; rewrite ?fmap_cons;
    cbn [numbered lookups length fst].
  - cbn. repeat split; lia.
  - apply NoDup_cons in Hnd as [Hk Hnd]. apply Forall_cons in Hok as [Hc Hok].
    assert (Hsk : stored s k = None) by (apply Hnew; left).
    destruct (cold_miss_store s k c Hsk Hc) as [Hcache Hlen].
    assert (Hset : cache (lookup_ k c s) =
              {| LRUMap.max := LRUMap.max (cache s);
                 LRUMap.entries := (k, length (records s)) :: LRUMap.entries (cache s);
                 LRUMap.disposed := LRUMap.disposed (cache s) |}).
    { rewrite Hcache, LRUMapFacts.set_absent by exact Hsk. f_equal.
      - apply take_ge. cbn. lia.
      - rewrite drop_ge by (cbn; lia). cbn. apply app_nil_r. }
    destruct (IH (lookup_ k c s)) as (He & Hd & Hm & Hl); try done.
    + intros k' Hk'. unfold stored. rewrite Hset. cbn.
      destruct (String.eqb_spec k' k) as [->|Hne]; [done|].
      apply Hnew. by right.
    + rewrite Hset. cbn. lia.
    + rewrite He, Hd, Hm, Hl, Hlen, Hset.
      cbn [LRUMap.entries LRUMap.disposed LRUMap.max].
      repeat split; try lia. by rewrite reverse_cons, <- app_assoc.
Qed.


(** A first population followed, once the entry has expired, by a refresh. *)
Lemma populate_then_refresh (s : state) (k : key) (create create' : producer)
    (v v' : jsval) (dt : Z) (fuel : nat) :
  stored s k = None ->
  microtasks s = [] ->
  (1 <= LRUMap.max (cache s))%Z ->
  answers create (Fulfilled v) ->
  nullish v = false ->
  answers create' (Fulfilled v') ->
  truthy v' = true ->
  (ttl_of (defaultTTL s) v < dt)%Z ->
  3 <= fuel ->
  let p := length (promises s) in
  let '(r, s1) := get k create s in
  let s2 := run_microtasks fuel (complete create p (Fulfilled v) s1) in
  let p' := length (promises s2) in
  let '(r', s3) := get k create' (tick dt s2) in
  let s4 := run_microtasks fuel (complete create' p' (Fulfilled v') s3) in
  (exists q, r = Normal q /\
     promise_state s2 q = Some (Fulfilled (inner v))) /\
  entry s2 k =
    Some {| expires := clock s + ttl_of (defaultTTL s) v; next := None;
            value := Some (p + 1) |} /\
  held s2 k = Some (Fulfilled v) /\
  created s3 = created s ++ [create; create'] /\
  (exists q, r' = Normal q /\
     promise_state s4 q = Some (Fulfilled (inner v))) /\
  entry s4 k =
    Some {| expires := clock s + dt + ttl_of (defaultTTL s) v'; next := None;
            value := Some p' |} /\
  held s4 k = Some (Fulfilled v').
Proof.
  intros Hk Hq Hmax Hans Hn Hans' Hv' Hdt Hfuel. burn fuel.
  destruct s as [c dflt clk rs ps q cr]; unfold stored in *; cbn in *. subst q.
  unfold ttl_of in Hdt |- *.
  destruct (truthy_ttl (field_ttl v)) eqn:Ht;
    (destruct create as [?|w|]; cbn in Hans; [done | injection Hans as <- |]);
    (destruct create' as [?|w'|]; cbn in Hans'; [done | injection Hans' as <- |]);
    run; finish.
Qed.

(** * Properties of the cache

    A statement runs the program step by step: [get k create s] is a call
    of the method in state [s]; [settle p o] and [complete create p o] are
    the producer's promise settling; [tick dt] is time passing;
    [run_microtasks fuel] runs the promise jobs queued so far.  The
    statements hold for every [fuel] that covers the queued jobs. *)

(** C1. Where the code departs from the claim: a rejected first population
    is kept.  The returned promise is rejected with the producer's error, as
    claimed; but the entry for the key stays in the store, holding the
    rejected promise, and the next lookup of the key (any time later) is a
    hit on that entry: its promise is rejected with the same error, and its
    producer is called only if the entry has expired by then, as a
    background refresh. *)
Theorem failed_population_is_kept (s : state) (k : key) (e : error)
    (create2 : producer) (v2 : jsval) (dt : Z) (fuel : nat) :
  stored s k = None ->
  microtasks s = [] ->
  (1 <= LRUMap.max (cache s))%Z ->
  answers create2 (Fulfilled v2) ->
  (0 <= dt)%Z ->
  3 <= fuel ->
  let p := length (promises s) in
  let '(r, s1) := get k CreateAsync s in
  let s2 := run_microtasks fuel (settle p (Rejected e) s1) in
  let '(r', s3) := get k create2 (tick dt s2) in
  let s4 := run_microtasks fuel s3 in
  (exists q, r = Normal q /\ promise_state s2 q = Some (Rejected e)) /\
  entry s2 k =
    Some {| expires := clock s + defaultTTL s; next := None;
            value := Some (p + 1) |} /\
  held s2 k = Some (Rejected e) /\
  created s3 =
    created s1 ++ (if (defaultTTL s <? dt)%Z then [create2] else []) /\
  (exists q', r' = Normal q' /\ promise_state s4 q' = Some (Rejected e)).
Proof.
  intros Hk Hq Hmax Hans Hdt Hfuel. burn fuel.
  destruct s as [c dflt clk rs ps q cr]; unfold stored in *; cbn in *. subst q.
  destruct (truthy v2) eqn:Hv2;
    destruct (Z.ltb_spec dflt dt) as [Hexp|Hexp];
    (destruct create2 as [e2|w|]; cbn in Hans; [done | injection Hans as <- |]);
    run; (split; [|split; [|split; [|split]]]); try returned; observe;
    rewrite ?app_nil_r; done.
Qed.

(** A producer that fails on a new cache, and a lookup 5 ms later. *)
Lemma failed_population_is_kept_witness :
  let s := new_cache in
  let k := "K" in
  let e := boom in
  let create2 := CreateReturns (JObj None (JStr "V")) in
  let v2 := JObj None (JStr "V") in
  let dt := 5%Z in
  let fuel := 3 in
  let p := length (promises s) in
  let '(r, s1) := get k CreateAsync s in
  let s2 := run_microtasks fuel (settle p (Rejected e) s1) in
  let '(r', s3) := get k create2 (tick dt s2) in
  let s4 := run_microtasks fuel s3 in
  (exists q, r = Normal q /\ promise_state s2 q = Some (Rejected e)) /\
  entry s2 k =
    Some {| expires := clock s + defaultTTL s; next := None;
            value := Some (p + 1) |} /\
  held s2 k = Some (Rejected e) /\
  created s3 =
    created s1 ++ (if (defaultTTL s <? dt)%Z then [create2] else []) /\
  (exists q', r' = Normal q' /\ promise_state s4 q' = Some (Rejected e)).
Proof.
  intros s k e create2 v2 dt fuel.
  apply (failed_population_is_kept
           s k e create2 v2 dt fuel);
    [ reflexivity | reflexivity | by vm_compute | reflexivity |
      by vm_compute | by vm_compute ].
Defined.

(** The same at a single clock reading: after a rejected first population
    the entry is still in the store, and a second lookup neither calls its
    producer nor resolves to that producer's value. *)
Lemma failed_population_example :
  let s := new_cache in
  let '(r, s1) := get "K" CreateAsync s in
  let s2 := run_microtasks 3 (settle 0 (Rejected boom) s1) in
  let '(r', s3) := get "K" (CreateReturns (JObj None (JStr "V"))) s2 in
  let s4 := run_microtasks 3 s3 in
  stored s "K" = None /\
  stored s2 "K" <> None /\
  created s3 = created s2 /\
  exists q', r' = Normal q' /\
    promise_state s4 q' = Some (Rejected boom).
Proof. vm_compute. repeat split; [discriminate|]. by eexists. Qed.

(** C2. Where the code departs from the claim: a result that is an object
    without a [value] property is a success for the cache.  On a miss the
    returned promise is fulfilled with [undefined] and the entry holds the
    result; on a refresh the result is promoted into the entry and the expiry
    is recomputed. *)
Theorem valueless_result_is_accepted (s : state) (k : key)
    (create create' : producer) (t t' : option Z) (dt : Z) (fuel : nat) :
  stored s k = None ->
  microtasks s = [] ->
  (1 <= LRUMap.max (cache s))%Z ->
  answers create (Fulfilled (JObj t JUndefined)) ->
  answers create' (Fulfilled (JObj t' JUndefined)) ->
  (ttl_of (defaultTTL s) (JObj t JUndefined) < dt)%Z ->
  3 <= fuel ->
  let p := length (promises s) in
  let '(r, s1) := get k create s in
  let s2 :=
    run_microtasks fuel (complete create p (Fulfilled (JObj t JUndefined)) s1) in
  let p' := length (promises s2) in
  let '(r', s3) := get k create' (tick dt s2) in
  let s4 :=
    run_microtasks fuel
      (complete create' p' (Fulfilled (JObj t' JUndefined)) s3) in
  (exists q, r = Normal q /\ promise_state s2 q = Some (Fulfilled JUndefined)) /\
  held s2 k = Some (Fulfilled (JObj t JUndefined)) /\
  entry s4 k =
    Some {| expires :=
              clock s + dt + ttl_of (defaultTTL s) (JObj t' JUndefined);
            next := None; value := Some p' |} /\
  held s4 k = Some (Fulfilled (JObj t' JUndefined)).
Proof.
  intros Hk Hq Hmax Hans Hans' Hdt Hfuel.
  pose proof (populate_then_refresh s k create create' (JObj t JUndefined)
                (JObj t' JUndefined) dt fuel Hk Hq Hmax Hans eq_refl Hans'
                eq_refl Hdt Hfuel) as P.
  cbv zeta in P |- *.
  destruct (get k create s) as [r s1].
  destruct (get k create' _) as [r' s3].
  destruct P as (P1 & P2 & P3 & P4 & P5 & P6 & P7). done.
Qed.

(** Producers answering [{ttl: 100}] on a miss and [{}] on the refresh. *)
Lemma valueless_result_is_accepted_witness :
  let s := new_cache in
  let k := "id_1" in
  let create := CreateReturns (JObj (Some 100%Z) JUndefined) in
  let create' := CreateReturns (JObj None JUndefined) in
  let t := Some 100%Z in
  let t' := @None Z in
  let dt := 101%Z in
  let fuel := 3 in
  let p := length (promises s) in
  let '(r, s1) := get k create s in
  let s2 :=
    run_microtasks fuel (complete create p (Fulfilled (JObj t JUndefined)) s1) in
  let p' := length (promises s2) in
  let '(r', s3) := get k create' (tick dt s2) in
  let s4 :=
    run_microtasks fuel
      (complete create' p' (Fulfilled (JObj t' JUndefined)) s3) in
  (exists q, r = Normal q /\ promise_state s2 q = Some (Fulfilled JUndefined)) /\
  held s2 k = Some (Fulfilled (JObj t JUndefined)) /\
  entry s4 k =
    Some {| expires :=
              clock s + dt + ttl_of (defaultTTL s) (JObj t' JUndefined);
            next := None; value := Some p' |} /\
  held s4 k = Some (Fulfilled (JObj t' JUndefined)).
Proof.
  intros s k create create' t t' dt fuel.
  apply (valueless_result_is_accepted
           s k create create' t t' dt fuel);
    [ reflexivity | reflexivity | by vm_compute | reflexivity |
      reflexivity | by vm_compute | by vm_compute ].
Defined.




(** C4. Where the code departs from the claim: two lookups find the entry
    expired and each starts a refresh.  The first refresh succeeds, and its
    callback stores [cacheRecord.next], by then the promise of the second
    refresh, as the entry's value.  The second refresh fails: the entry now
    holds a rejected promise, and the next lookup of the key is rejected with
    the error of that background refresh. *)
Theorem overlapping_refresh_failure_reaches_callers (s : state) (k : key)
    (rec : cacheRecord) (pv : pid) (v0 vA : jsval) (e : error)
    (create' : producer) (v' : jsval) (dt : Z) (fuel : nat) :
  entry s k = Some rec ->
  value rec = Some pv ->
  promise_state s pv = Some (Fulfilled v0) ->
  nullish v0 = false ->
  microtasks s = [] ->
  (expires rec < clock s)%Z ->
  truthy vA = true ->
  answers create' (Fulfilled v') ->
  (0 <= dt)%Z ->
  3 <= fuel ->
  let pA := length (promises s) in
  let '(r1, s1) := get k CreateAsync s in
  let s1' := run_microtasks fuel s1 in
  let pB := length (promises s1') in
  let '(r2, s2) := get k CreateAsync s1' in
  let s2' := run_microtasks fuel s2 in
  let s3 := run_microtasks fuel (settle pA (Fulfilled vA) s2') in
  let s4 := run_microtasks fuel (settle pB (Rejected e) s3) in
  let '(r3, s5) := get k create' (tick dt s4) in
  let s6 := run_microtasks fuel s5 in
  (exists q, r1 = Normal q /\
     promise_state s6 q = Some (Fulfilled (inner v0))) /\
  (exists q, r2 = Normal q /\
     promise_state s6 q = Some (Fulfilled (inner v0))) /\
  entry s3 k =
    Some {| expires := clock s + ttl_of (defaultTTL s) vA; next := None;
            value := Some pB |} /\
  held s4 k = Some (Rejected e) /\
  (exists q, r3 = Normal q /\ promise_state s6 q = Some (Rejected e)).
Proof.
  intros He Hpv Hv0 Hn0 Hq Hexp HvA Hans Hdt Hfuel. burn fuel.
  unfold entry in He. destruct (stored s k) as [l|] eqn:Hk; [|done].
  cbn in He. rename He into Hl.
  apply promise_state_inv in Hv0 as [rs0 Hv0].
  destruct s as [c dflt clk rs ps q cr], rec as [ex nx vl];
    unfold stored in *; cbn in *. subst q vl.
  destruct (Z.lt_ge_cases (clk + ttl_of dflt vA) (clk + dt));
    (destruct create' as [?|w'|]; cbn in Hans;
       [done | injection Hans as <-; destruct (truthy v') eqn:Hv' |]);
    run; finish.
Qed.

(** Two overlapping refreshes of the test's expired entry: the first succeeds,
    the second fails, and the next lookup is rejected. *)
Lemma overlapping_refresh_failure_reaches_callers_witness :
  let s := stale in
  let k := "id_q" in
  let rec := stale_record in
  let pv := 1 in
  let v0 := cached_value in
  let vA := new_value in
  let e := boom in
  let create' := CreateReturns final_value in
  let v' := final_value in
  let dt := 0%Z in
  let fuel := 3 in
  let pA := length (promises s) in
  let '(r1, s1) := get k CreateAsync s in
  let s1' := run_microtasks fuel s1 in
  let pB := length (promises s1') in
  let '(r2, s2) := get k CreateAsync s1' in
  let s2' := run_microtasks fuel s2 in
  let s3 := run_microtasks fuel (settle pA (Fulfilled vA) s2') in
  let s4 := run_microtasks fuel (settle pB (Rejected e) s3) in
  let '(r3, s5) := get k create' (tick dt s4) in
  let s6 := run_microtasks fuel s5 in
  (exists q, r1 = Normal q /\
     promise_state s6 q = Some (Fulfilled (inner v0))) /\
  (exists q, r2 = Normal q /\
     promise_state s6 q = Some (Fulfilled (inner v0))) /\
  entry s3 k =
    Some {| expires := clock s + ttl_of (defaultTTL s) vA; next := None;
            value := Some pB |} /\
  held s4 k = Some (Rejected e) /\
  (exists q, r3 = Normal q /\ promise_state s6 q = Some (Rejected e)).
Proof.
  intros s k rec pv v0 vA e create' v' dt fuel.
  apply (overlapping_refresh_failure_reaches_callers
           s k rec pv v0 vA e create' v' dt fuel);
    [ reflexivity | reflexivity | reflexivity | reflexivity | reflexivity |
      by vm_compute | reflexivity | reflexivity | by vm_compute |
      by vm_compute ].
Defined.

(** The other way a refresh can fail: a producer that throws makes the
    lookup itself throw, for an entry that is there to be served. *)
Lemma throwing_refresh_example :
  fst (get "id_q" (CreateThrows boom) stale) = Throw boom.
Proof. reflexivity. Qed.

(** C5 (amended). On a hit the producer is called exactly when the entry's
    expiry lies strictly before the current time; at [now = expires] and
    before, the lookup is answered from the entry without calling it. *)
Theorem producer_called_iff_expired (s : state) (k : key)
    (rec : cacheRecord) (create : producer) (pv : pid) (v0 : jsval)
    (fuel : nat) :
  entry s k = Some rec ->
  (forall p, value rec = Some p -> is_Some (promises s !! p)) ->
  let '(r, s1) := get k create s in
  (created s1 = created s ++ [create] <-> (expires rec < clock s)%Z) /\
  ((clock s <= expires rec)%Z -> created s1 = created s) /\
  ((clock s <= expires rec)%Z ->
   value rec = Some pv ->
   promise_state s pv = Some (Fulfilled v0) ->
   nullish v0 = false ->
   microtasks s = [] ->
   2 <= fuel ->
   exists q, r = Normal q /\
     promise_state (run_microtasks fuel s1) q = Some (Fulfilled (inner v0))).
Proof.
  intros He Hwf.
  unfold entry in He. destruct (stored s k) as [l|] eqn:Hk; [|done].
  cbn in He. rename He into Hl.
  destruct s as [c dflt clk rs ps q cr], rec as [ex nx vl];
    unfold stored in *; cbn in *.
  assert (Hvl : match vl with
                | Some p => exists o rsx,
                    ps !! p = Some {| outcome := o; reactions := rsx |}
                | None => True
                end).
  { destruct vl as [p|]; [|done].
    destruct (Hwf p eq_refl) as [[o rsx] Hp]. by exists o, rsx. }
  clear Hwf.
  destruct (Z.lt_ge_cases ex clk) as [Hexp|Hexp].
  - destruct create as [e|w|], vl as [pv'|];
      try destruct Hvl as ([o|] & rsx & Hpv');
      run; (split; [|split]); intros; try lia; done.
  - destruct vl as [pv'|];
      try destruct Hvl as ([o|] & rsx & Hpv');
      run; (split; [split|split]); intros; try lia; try done;
      try (by exfalso; eapply snoc_neq).
    all: match goal with H : Some _ = Some _ |- _ => injection H as <- end.
    all: match goal with
         | H : promise_state _ _ = Some _ |- _ =>
             unfold promise_state in H; cbn in H; rewrite Hpv' in H;
             cbn in H; try discriminate; injection H as ->
         end.
    subst q. burn fuel. run. finish.
Qed.

(** A lookup of the test's entry at the very time of its expiry. *)
Lemma producer_called_iff_expired_witness :
  let s := at_expiry in
  let k := "id_q" in
  let rec := stale_record in
  let create := CreateReturns new_value in
  let pv := 1 in
  let v0 := cached_value in
  let fuel := 2 in
  let '(r, s1) := get k create s in
  (created s1 = created s ++ [create] <-> (expires rec < clock s)%Z) /\
  ((clock s <= expires rec)%Z -> created s1 = created s) /\
  ((clock s <= expires rec)%Z ->
   value rec = Some pv ->
   promise_state s pv = Some (Fulfilled v0) ->
   nullish v0 = false ->
   microtasks s = [] ->
   2 <= fuel ->
   exists q, r = Normal q /\
     promise_state (run_microtasks fuel s1) q = Some (Fulfilled (inner v0))).
Proof.
  intros s k rec create pv v0 fuel.
  apply (producer_called_iff_expired
           s k rec create pv v0 fuel);
    [ reflexivity | intros p [= <-]; by eexists ].
Defined.

(** C5, as stated, fails at [now = expires]: the producer is not called. *)
Lemma expiry_boundary_counterexample :
  let s := at_expiry in
  let create := CreateReturns new_value in
  clock s = 100%Z /\
  expires <$> entry s "id_q" = Some 100%Z /\
  created (lookup_ "id_q" create s) = created s /\
  created (lookup_ "id_q" create s) <> created s ++ [create].
Proof. vm_compute. repeat split. discriminate. Qed.

(** C6 (amended). Every lookup that finds the entry's expiry strictly
    before the current time calls its producer, whatever the entry's [next]
    field holds: a second lookup made while the refresh started by the first
    is still pending calls its producer too. *)
Theorem every_stale_lookup_calls_producer (s : state) (k : key)
    (rec : cacheRecord) (c1 c2 : producer) :
  entry s k = Some rec ->
  (forall p, value rec = Some p -> is_Some (promises s !! p)) ->
  (expires rec < clock s)%Z ->
  let p := length (promises s) in
  let '(r1, s1) := get k c1 s in
  let '(r2, s2) := get k c2 s1 in
  created s1 = created s ++ [c1] /\
  created s2 = created s ++ [c1; c2] /\
  (c1 = CreateAsync ->
   next <$> entry s1 k = Some (Some p) /\ promise_state s1 p = None).
Proof.
  intros He Hwf Hexp.
  unfold entry in He. destruct (stored s k) as [l|] eqn:Hk; [|done].
  cbn in He. rename He into Hl.
  destruct s as [c dflt clk rs ps q cr], rec as [ex nx vl];
    unfold stored in *; cbn in *.
  assert (Hvl : match vl with
                | Some p => exists o rsx,
                    ps !! p = Some {| outcome := o; reactions := rsx |}
                | None => True
                end).
  { destruct vl as [p|]; [|done].
    destruct (Hwf p eq_refl) as [[o rsx] Hp]. by exists o, rsx. }
  clear Hwf.
  destruct c1 as [e1|w1|], c2 as [e2|w2|], vl as [pv'|];
    try destruct Hvl as ([o|] & rsx & Hpv');
    run; finish.
Qed.

(** Two lookups of the test's expired entry, the first refresh still pending.
    *)
Lemma every_stale_lookup_calls_producer_witness :
  let s := stale in
  let k := "id_q" in
  let rec := stale_record in
  let c1 := CreateAsync in
  let c2 := CreateAsync in
  let p := length (promises s) in
  let '(r1, s1) := get k c1 s in
  let '(r2, s2) := get k c2 s1 in
  created s1 = created s ++ [c1] /\
  created s2 = created s ++ [c1; c2] /\
  (c1 = CreateAsync ->
   next <$> entry s1 k = Some (Some p) /\ promise_state s1 p = None).
Proof.
  intros s k rec c1 c2.
  apply (every_stale_lookup_calls_producer
           s k rec c1 c2);
    [ reflexivity | intros p [= <-]; by eexists | by vm_compute ].
Defined.

(** C6, as stated, fails at [now = expires], which the claim counts as
    expired: on a cache with the default settings, a second lookup of a key
    made in the millisecond of the first finds the entry at its expiry and
    calls no producer. *)
Lemma same_millisecond_counterexample :
  let s := lookup_ "id_1" CreateAsync new_cache in
  let create := CreateReturns new_value in
  clock s = 0%Z /\
  expires <$> entry s "id_1" = Some 0%Z /\
  created (lookup_ "id_1" create s) = created s /\
  created (lookup_ "id_1" create s) <> created s ++ [create].
Proof. vm_compute. repeat split. discriminate. Qed.





(** C8. Cold miss: on a cache just constructed, a lookup of any key calls the
    producer exactly once, and once the producer's result [v] is there the
    returned promise is fulfilled with [v.value]. *)
Theorem cold_miss_resolves (opts : option options) (t0 : Z) (k : key)
    (create : producer) (v : jsval) (fuel : nat) :
  answers create (Fulfilled v) ->
  nullish v = false ->
  3 <= fuel ->
  let s0 := constructor opts t0 in
  let '(r, s1) := get k create s0 in
  let s2 :=
    run_microtasks fuel
      (complete create (length (promises s0)) (Fulfilled v) s1) in
  created s1 = [create] /\ created s2 = [create] /\ microtasks s2 = [] /\
  exists q, r = Normal q /\ promise_state s1 q = None /\
    promise_state s2 q = Some (Fulfilled (inner v)).
Proof.
  intros Hans Hv Hfuel. burn fuel. unfold constructor.
  destruct create as [e|v'|]; cbn in Hans; [done | injection Hans as <- |].
  - cases_jsval v; try discriminate; run.
    all: repeat split; try done; eexists; repeat split; observe; done.
  - cases_jsval v; try discriminate; run.
    all: repeat split; try done; eexists; repeat split; observe; done.
Qed.

(** The first test of the repository: a lookup on a new cache. *)
Lemma cold_miss_resolves_witness :
  let opts := @None options in
  let t0 := 0%Z in
  let k := "id_1" in
  let create := CreateReturns first_value in
  let v := first_value in
  let fuel := 3 in
  let s0 := constructor opts t0 in
  let '(r, s1) := get k create s0 in
  let s2 :=
    run_microtasks fuel
      (complete create (length (promises s0)) (Fulfilled v) s1) in
  created s1 = [create] /\ created s2 = [create] /\ microtasks s2 = [] /\
  exists q, r = Normal q /\ promise_state s1 q = None /\
    promise_state s2 q = Some (Fulfilled (inner v)).
Proof.
  intros opts t0 k create v fuel.
  apply (cold_miss_resolves
           opts t0 k create v fuel);
    [ reflexivity | reflexivity | by vm_compute ].
Defined.

(** C9. A cache whose store has capacity [N] and into which [N + 1]
    distinct keys are inserted, each by a lookup that misses.  Before the
    last insertion the store is full and the key inserted first is at its
    least recently accessed end.  Afterwards that key is gone, the store
    holds no more than [N] entries, the other keys are all there, and
    [dispose] has been called once, with the record that was stored for the
    first key. *)
Theorem lru_eviction (N : nat) (opts : option options) (t0 : Z) (k0 : key)
    (c0 : producer) (ks : list (key * producer)) :
  LRUMap.max (cache (constructor opts t0)) = Z.of_nat N ->
  length ks = N ->
  NoDup (k0 :: ks.*1) ->
  Forall (fun kc => throws kc.2 = false) ((k0, c0) :: ks) ->
  let s1 := lookup_ k0 c0 (constructor opts t0) in
  let before := lookups (take (N - 1) ks) s1 in
  let s := lookups ks s1 in
  stored s1 k0 = Some 0 /\
  length (LRUMap.entries (cache before)) = N /\
  last (LRUMap.entries (cache before)) = Some (k0, 0) /\
  stored s k0 = None /\
  length (LRUMap.entries (cache s)) <= N /\
  (forall k, k ∈ ks.*1 -> is_Some (stored s k)) /\
  LRUMap.disposed (cache s) = [0].
Proof.
  intros Hmax Hlen Hnd Hok s1 before s.
  assert (HN : 1 <= N).
  { cbn in Hmax. unfold or_default in Hmax.
    destruct (opts ≫= capacity) as [n|]; [destruct (Z.eqb_spec n 0)|]; lia. }
  cbn in Hmax.
  assert (Hne : ks <> []) by (intros ->; cbn in Hlen; lia).
  destruct (exists_last Hne) as (ks1 & [kN cN] & ->). clear Hne.
  rewrite length_app in Hlen. cbn in Hlen.
  rewrite fmap_app in Hnd. cbn in Hnd.
  apply NoDup_cons in Hnd as [Hk0 Hnd].
  apply not_elem_of_app in Hk0 as [Hk0 Hk0N].
  rewrite list_elem_of_singleton in Hk0N.
  apply NoDup_app in Hnd as (Hnd1 & HkN & _).
  apply Forall_cons in Hok as [Hc0 Hok].
  apply Forall_app in Hok as [Hok1 HcN].
  rewrite Forall_singleton in HcN. cbn in HcN.
  assert (Hs0 : forall k, stored (constructor opts t0) k = None) by done.
  destruct (cold_miss_store _ k0 c0 (Hs0 k0) Hc0) as [Hc1 Hl1].
  fold s1 in Hc1, Hl1. cbn in Hl1.
  assert (Hfill := lookups_fill ((k0, c0) :: ks1) (constructor opts t0)).
  cbn in Hfill. fold s1 in Hfill.
  destruct Hfill as (He & Hd & Hm & Hl).
  { apply NoDup_cons. by split. }
  { done. }
  { by apply Forall_cons. }
  { rewrite Hmax. lia. }
  set (sN := lookups ks1 s1) in *.
  assert (Hbefore : before = sN).
  { unfold before. by rewrite take_app_length' by lia. }
  rewrite Hbefore. clear before Hbefore.
  assert (HsN : stored sN kN = None).
  { unfold stored. rewrite He, app_nil_r. apply LRUMapFacts.find_None.
    rewrite fmap_reverse, fmap_cons, numbered_keys, elem_of_reverse.
    rewrite not_elem_of_cons. split; [cbn; congruence|].
    intros Hin. apply (HkN kN Hin). by apply list_elem_of_singleton. }
  destruct (cold_miss_store sN kN cN HsN HcN) as [HcS _].
  assert (Hs : s = lookup_ kN cN sN).
  { apply lookups_snoc. }
  rewrite <- Hs in HcS. rewrite LRUMapFacts.set_absent in HcS by exact HsN.
  rewrite He, Hm, Hd, Hmax, Nat2Z.id, app_nil_r in HcS.
  cbn [numbered] in HcS. rewrite reverse_cons in HcS.
  assert (Hlen' : N = length ((kN, length (records sN)) ::
                    reverse (numbered 1 ks1.*1))).
  { cbn. rewrite length_reverse, numbered_length, length_fmap. lia. }
  rewrite app_comm_cons in HcS.
  rewrite (take_app_length' _ _ _ Hlen'), (drop_app_length' _ _ _ Hlen') in HcS.
  cbn in HcS.
  split; [|split; [|split; [|split; [|split; [|split]]]]].
  - unfold stored. rewrite Hc1. apply LRUMapFacts.find_set. cbn. rewrite Hmax. lia.
  - rewrite He, app_nil_r, length_reverse. cbn.
    rewrite numbered_length, length_fmap. lia.
  - by rewrite He, app_nil_r, reverse_cons, last_snoc.
  - unfold stored. rewrite HcS. cbn [LRUMap.entries]. apply LRUMapFacts.find_None.
    rewrite fmap_cons, fmap_reverse, numbered_keys, not_elem_of_cons,
      elem_of_reverse.
    split; [cbn; congruence | done].
  - rewrite HcS. cbn. rewrite length_reverse, numbered_length, length_fmap. lia.
  - intros k Hk. unfold stored. rewrite HcS. cbn [LRUMap.entries].
    destruct (LRUMap.find k _) eqn:Hf; [done|]. exfalso.
    apply LRUMapFacts.find_None in Hf. apply Hf.
    rewrite fmap_cons, fmap_reverse, numbered_keys. rewrite fmap_app in Hk.
    cbn in Hk |- *.
    apply elem_of_app in Hk as [Hk|Hk].
    + right. by apply elem_of_reverse.
    + apply list_elem_of_singleton in Hk as ->. left.
  - rewrite HcS. done.
Qed.

(** The scenario of the specification without the lookup of a: capacity 2 and
    the keys a, b, c. *)
Lemma lru_eviction_witness :
  let N := 2 in
  let opts := Some {| capacity := Some 2%Z; opt_defaultTTL := Some 100%Z |} in
  let t0 := 0%Z in
  let k0 := "a" in
  let c0 := CreateReturns (JObj None (JStr "A")) in
  let ks := [("b", CreateReturns (JObj None (JStr "B")));
     ("c", CreateReturns (JObj None (JStr "C")))] in
  let s1 := lookup_ k0 c0 (constructor opts t0) in
  let before := lookups (take (N - 1) ks) s1 in
  let s := lookups ks s1 in
  stored s1 k0 = Some 0 /\
  length (LRUMap.entries (cache before)) = N /\
  last (LRUMap.entries (cache before)) = Some (k0, 0) /\
  stored s k0 = None /\
  length (LRUMap.entries (cache s)) <= N /\
  (forall k, k ∈ ks.*1 -> is_Some (stored s k)) /\
  LRUMap.disposed (cache s) = [0].
Proof.
  intros N opts t0 k0 c0 ks.
  apply (lru_eviction
           N opts t0 k0 c0 ks);
    [ reflexivity | reflexivity |
      apply (bool_decide_unpack _); by vm_compute | by repeat constructor ].
Defined.

(** C10. A result whose [ttl] is 0 is handled as one without [ttl]: the
    expiry set at the first population is the time of insertion plus
    [defaultTTL], and the expiry set by a successful refresh is the time of
    the callback plus [defaultTTL]. *)
Theorem zero_ttl_uses_default (s : state) (k : key)
    (create create' : producer) (t t' : option Z) (w w' : jsval) (dt : Z)
    (fuel : nat) :
  stored s k = None ->
  microtasks s = [] ->
  (1 <= LRUMap.max (cache s))%Z ->
  t = Some 0%Z \/ t = None ->
  t' = Some 0%Z \/ t' = None ->
  answers create (Fulfilled (JObj t w)) ->
  answers create' (Fulfilled (JObj t' w')) ->
  (defaultTTL s < dt)%Z ->
  3 <= fuel ->
  let p := length (promises s) in
  let '(r, s1) := get k create s in
  let s2 := run_microtasks fuel (complete create p (Fulfilled (JObj t w)) s1) in
  let p' := length (promises s2) in
  let '(r', s3) := get k create' (tick dt s2) in
  let s4 :=
    run_microtasks fuel (complete create' p' (Fulfilled (JObj t' w')) s3) in
  expires <$> entry s1 k = Some (clock s + defaultTTL s)%Z /\
  expires <$> entry s2 k = Some (clock s + defaultTTL s)%Z /\
  expires <$> entry s4 k = Some (clock s + dt + defaultTTL s)%Z /\
  held s4 k = Some (Fulfilled (JObj t' w')).
Proof.
  intros Hk Hq Hmax Ht Ht' Hans Hans' Hdt Hfuel.
  assert (E : ttl_of (defaultTTL s) (JObj t w) = defaultTTL s)
    by (by destruct Ht as [-> | ->]).
  assert (E' : ttl_of (defaultTTL s) (JObj t' w') = defaultTTL s)
    by (by destruct Ht' as [-> | ->]).
  pose proof (populate_then_refresh s k create create' (JObj t w)
                (JObj t' w') dt fuel Hk Hq Hmax Hans eq_refl Hans'
                eq_refl) as P.
  rewrite E, E' in P. specialize (P Hdt Hfuel).
  assert (E1 : expires <$> entry (snd (get k create s)) k
               = Some (clock s + defaultTTL s)%Z).
  { clear P. destruct s as [c dflt clk rs ps q cr];
      unfold stored in *; cbn in *.
    destruct create as [?|?|]; cbn in Hans; [done| |]; run; finish. }
  cbv zeta in P |- *.
  destruct (get k create s) as [r s1].
  destruct (get k create' _) as [r' s3].
  destruct P as (P1 & P2 & P3 & P4 & P5 & P6 & P7).
  rewrite P2, P6. done.
Qed.

(** Results with [ttl: 0] on a cache whose default is 50 ms. *)
Lemma zero_ttl_uses_default_witness :
  let s := constructor (Some {| capacity := None; opt_defaultTTL := Some 50%Z |}) 0 in
  let k := "id_1" in
  let create := CreateReturns (JObj (Some 0%Z) (JStr "A")) in
  let create' := CreateReturns (JObj (Some 0%Z) (JStr "B")) in
  let t := Some 0%Z in
  let t' := Some 0%Z in
  let w := JStr "A" in
  let w' := JStr "B" in
  let dt := 51%Z in
  let fuel := 3 in
  let p := length (promises s) in
  let '(r, s1) := get k create s in
  let s2 := run_microtasks fuel (complete create p (Fulfilled (JObj t w)) s1) in
  let p' := length (promises s2) in
  let '(r', s3) := get k create' (tick dt s2) in
  let s4 :=
    run_microtasks fuel (complete create' p' (Fulfilled (JObj t' w')) s3) in
  expires <$> entry s1 k = Some (clock s + defaultTTL s)%Z /\
  expires <$> entry s2 k = Some (clock s + defaultTTL s)%Z /\
  expires <$> entry s4 k = Some (clock s + dt + defaultTTL s)%Z /\
  held s4 k = Some (Fulfilled (JObj t' w')).
Proof.
  intros s k create create' t t' w w' dt fuel.
  apply (zero_ttl_uses_default
           s k create create' t t' w w' dt fuel);
    [ reflexivity | reflexivity | by vm_compute | by left | by left |
      reflexivity | reflexivity | by vm_compute | by vm_compute ].
Defined.

(** * Further properties

    What the code does in the places the properties above leave out:
    producers that throw, results that are [undefined] or [null], lookups
    that overlap, [clear], and what holds of every state a cache can be
    in. *)

(** ** Producers that throw, and results that cannot be read *)

(** X1. A producer that throws on a miss makes [get] throw the same error
    and leaves the cache as it was, the record of the call apart: nothing is
    stored, and the next lookup of the key is a miss that is answered by its
    own producer. *)
Theorem throwing_producer_on_miss (s : state) (k : key) (e : error)
    (create2 : producer) (v2 : jsval) (fuel : nat) :
  stored s k = None ->
  microtasks s = [] ->
  (1 <= LRUMap.max (cache s))%Z ->
  answers create2 (Fulfilled v2) ->
  nullish v2 = false ->
  3 <= fuel ->
  let '(r, s1) := get k (CreateThrows e) s in
  let p := length (promises s1) in
  let '(r2, s2) := get k create2 s1 in
  let s3 := run_microtasks fuel (complete create2 p (Fulfilled v2) s2) in
  r = Throw e /\
  s1 = with_created (created s ++ [CreateThrows e]) s /\
  created s2 = created s ++ [CreateThrows e; create2] /\
  (exists q, r2 = Normal q /\
     promise_state s3 q = Some (Fulfilled (inner v2))) /\
  held s3 k = Some (Fulfilled v2).
Proof.
  intros Hk Hq Hmax Hans Hn Hfuel. burn fuel.
  destruct s as [c dflt clk rs ps q cr]; unfold stored in *; cbn in *. subst q.
  destruct (truthy_ttl (field_ttl v2)) eqn:Ht;
    (destruct create2 as [?|w|]; cbn in Hans; [done | injection Hans as <- |]);
    run; finish.
Qed.

(** A producer that throws on a new cache, followed by the lookup of the
    repository's first test. *)
Lemma throwing_producer_on_miss_witness :
  let s := new_cache in
  let k := "id_1" in
  let e := boom in
  let create2 := CreateReturns first_value in
  let v2 := first_value in
  let fuel := 3 in
  let '(r, s1) := get k (CreateThrows e) s in
  let p := length (promises s1) in
  let '(r2, s2) := get k create2 s1 in
  let s3 := run_microtasks fuel (complete create2 p (Fulfilled v2) s2) in
  r = Throw e /\
  s1 = with_created (created s ++ [CreateThrows e]) s /\
  created s2 = created s ++ [CreateThrows e; create2] /\
  (exists q, r2 = Normal q /\
     promise_state s3 q = Some (Fulfilled (inner v2))) /\
  held s3 k = Some (Fulfilled v2).
Proof.
  intros s k e create2 v2 fuel.
  apply (throwing_producer_on_miss
           s k e create2 v2 fuel);
    [ reflexivity | reflexivity | by vm_compute | reflexivity |
      reflexivity | by vm_compute ].
Defined.

(** X2. A producer that throws on a hit that has expired makes [get] throw:
    the value that is there to be served is not served.  The entry is left
    as it was, and nothing is queued. *)
Theorem throwing_producer_on_stale_hit (s : state) (k : key)
    (rec : cacheRecord) (e : error) :
  entry s k = Some rec ->
  (expires rec < clock s)%Z ->
  let '(r, s1) := get k (CreateThrows e) s in
  r = Throw e /\
  entry s1 k = Some rec /\
  promises s1 = promises s /\
  microtasks s1 = microtasks s /\
  created s1 = created s ++ [CreateThrows e].
Proof.
  intros He Hexp.
  unfold entry in He. destruct (stored s k) as [l|] eqn:Hk; [|done].
  cbn in He. rename He into Hl.
  destruct s as [c dflt clk rs ps q cr], rec as [ex nx vl];
    unfold stored in *; cbn in *.
  run. finish.
Qed.

(** A producer that throws at the test's expired entry. *)
Lemma throwing_producer_on_stale_hit_witness :
  let s := stale in
  let k := "id_q" in
  let rec := stale_record in
  let e := boom in
  let '(r, s1) := get k (CreateThrows e) s in
  r = Throw e /\
  entry s1 k = Some rec /\
  promises s1 = promises s /\
  microtasks s1 = microtasks s /\
  created s1 = created s ++ [CreateThrows e].
Proof.
  intros s k rec e.
  apply (throwing_producer_on_stale_hit
           s k rec e);
    [ reflexivity | by vm_compute ].
Defined.

(** X3. A producer whose result is [undefined] or [null] on a miss: reading
    [val.ttl] in the callback of [_set] fails, so the promise returned by
    [get] is rejected with a [TypeError]; the entry stays in the store,
    holding the rejected promise, with the default expiry. *)
Theorem nullish_result_on_miss (s : state) (k : key) (create : producer)
    (v : jsval) (fuel : nat) :
  stored s k = None ->
  microtasks s = [] ->
  (1 <= LRUMap.max (cache s))%Z ->
  answers create (Fulfilled v) ->
  nullish v = true ->
  3 <= fuel ->
  let p := length (promises s) in
  let '(r, s1) := get k create s in
  let s2 := run_microtasks fuel (complete create p (Fulfilled v) s1) in
  (exists q msg, r = Normal q /\
     promise_state s2 q = Some (Rejected (TypeError msg))) /\
  entry s2 k =
    Some {| expires := clock s + defaultTTL s; next := None;
            value := Some (p + 1) |} /\
  (exists msg, held s2 k = Some (Rejected (TypeError msg))).
Proof.
  intros Hk Hq Hmax Hans Hn Hfuel. burn fuel.
  destruct s as [c dflt clk rs ps q cr]; unfold stored in *; cbn in *. subst q.
  (destruct create as [?|w|]; cbn in Hans; [done | injection Hans as <- |]);
    destruct v; try discriminate; run;
    (split; [|split]); try (eexists; eexists; split; [reflexivity|]);
    try eexists; observe; rewrite ?app_nil_r; done.
Qed.

(** A producer that returns nothing, on a new cache. *)
Lemma nullish_result_on_miss_witness :
  let s := new_cache in
  let k := "id_1" in
  let create := CreateReturns JUndefined in
  let v := JUndefined in
  let fuel := 3 in
  let p := length (promises s) in
  let '(r, s1) := get k create s in
  let s2 := run_microtasks fuel (complete create p (Fulfilled v) s1) in
  (exists q msg, r = Normal q /\
     promise_state s2 q = Some (Rejected (TypeError msg))) /\
  entry s2 k =
    Some {| expires := clock s + defaultTTL s; next := None;
            value := Some (p + 1) |} /\
  (exists msg, held s2 k = Some (Rejected (TypeError msg))).
Proof.
  intros s k create v fuel.
  apply (nullish_result_on_miss
           s k create v fuel);
    [ reflexivity | reflexivity | by vm_compute | reflexivity |
      reflexivity | by vm_compute ].
Defined.

(** ** Refreshes that overlap *)

(** X4. Two lookups find the entry expired and each starts a refresh; both
    refreshes succeed, in either order.  The callback that runs second
    stores [cacheRecord.next], which the first has reset to [null], as the
    entry's value: the two callers are served the stale value, but from then
    on [get] throws a [TypeError] for the key, reading [then] of [null]. *)
Theorem overlapping_refreshes_null_the_value (s : state) (k : key)
    (rec : cacheRecord) (pv : pid) (v0 vA vB : jsval) (a_first : bool)
    (create' : producer) (dt : Z) (fuel : nat) :
  entry s k = Some rec ->
  value rec = Some pv ->
  promise_state s pv = Some (Fulfilled v0) ->
  nullish v0 = false ->
  microtasks s = [] ->
  (expires rec < clock s)%Z ->
  truthy vA = true ->
  truthy vB = true ->
  throws create' = false ->
  (0 <= dt)%Z ->
  3 <= fuel ->
  let pA := length (promises s) in
  let '(r1, s1) := get k CreateAsync s in
  let s1' := run_microtasks fuel s1 in
  let pB := length (promises s1') in
  let '(r2, s2) := get k CreateAsync s1' in
  let s2' := run_microtasks fuel s2 in
  let s3 :=
    if a_first
    then run_microtasks fuel (settle pB (Fulfilled vB)
           (run_microtasks fuel (settle pA (Fulfilled vA) s2')))
    else run_microtasks fuel (settle pA (Fulfilled vA)
           (run_microtasks fuel (settle pB (Fulfilled vB) s2'))) in
  let '(r3, s4) := get k create' (tick dt s3) in
  (exists q, r1 = Normal q /\
     promise_state s3 q = Some (Fulfilled (inner v0))) /\
  (exists q, r2 = Normal q /\
     promise_state s3 q = Some (Fulfilled (inner v0))) /\
  microtasks s3 = [] /\
  value <$> entry s3 k = Some None /\
  next <$> entry s3 k = Some None /\
  (exists msg, r3 = Throw (TypeError msg)).
Proof.
  intros He Hpv Hv0 Hn0 Hq Hexp HvA HvB Hc Hdt Hfuel. burn fuel.
  unfold entry in He. destruct (stored s k) as [l|] eqn:Hk; [|done].
  cbn in He. rename He into Hl.
  apply promise_state_inv in Hv0 as [rs0 Hv0].
  destruct s as [c dflt clk rs ps q cr], rec as [ex nx vl];
    unfold stored in *; cbn in *. subst q vl.
  destruct a_first.
  - destruct (Z.lt_ge_cases (clk + ttl_of dflt vB) (clk + dt));
      (destruct create' as [?|w'|]; [done | |]);
      run; finish; by eexists.
  - destruct (Z.lt_ge_cases (clk + ttl_of dflt vA) (clk + dt));
      (destruct create' as [?|w'|]; [done | |]);
      run; finish; by eexists.
Qed.

(** Two overlapping refreshes of the test's expired entry, both successful. *)
Lemma overlapping_refreshes_null_the_value_witness :
  let s := stale in
  let k := "id_q" in
  let rec := stale_record in
  let pv := 1 in
  let v0 := cached_value in
  let vA := new_value in
  let vB := final_value in
  let a_first := true in
  let create' := CreateReturns final_value in
  let dt := 0%Z in
  let fuel := 3 in
  let pA := length (promises s) in
  let '(r1, s1) := get k CreateAsync s in
  let s1' := run_microtasks fuel s1 in
  let pB := length (promises s1') in
  let '(r2, s2) := get k CreateAsync s1' in
  let s2' := run_microtasks fuel s2 in
  let s3 :=
    if a_first
    then run_microtasks fuel (settle pB (Fulfilled vB)
           (run_microtasks fuel (settle pA (Fulfilled vA) s2')))
    else run_microtasks fuel (settle pA (Fulfilled vA)
           (run_microtasks fuel (settle pB (Fulfilled vB) s2'))) in
  let '(r3, s4) := get k create' (tick dt s3) in
  (exists q, r1 = Normal q /\
     promise_state s3 q = Some (Fulfilled (inner v0))) /\
  (exists q, r2 = Normal q /\
     promise_state s3 q = Some (Fulfilled (inner v0))) /\
  microtasks s3 = [] /\
  value <$> entry s3 k = Some None /\
  next <$> entry s3 k = Some None /\
  (exists msg, r3 = Throw (TypeError msg)).
Proof.
  intros s k rec pv v0 vA vB a_first create' dt fuel.
  apply (overlapping_refreshes_null_the_value
           s k rec pv v0 vA vB a_first create' dt fuel);
    [ reflexivity | reflexivity | reflexivity | reflexivity | reflexivity |
      by vm_compute | reflexivity | reflexivity | reflexivity |
      by vm_compute | by vm_compute ].
Defined.

(** ** Lookups while the first population is under way *)

(** X6. [_set] stores the record before the producer has answered, so a
    second lookup of the key made while the first producer is still pending,
    and no later than [defaultTTL] after the first, is a hit: its producer
    is not called, and both lookups are answered, each by a promise of its
    own, with the first producer's value. *)
Theorem concurrent_misses_share_one_call (s : state) (k : key)
    (create2 : producer) (v : jsval) (dt : Z) (fuel : nat) :
  stored s k = None ->
  microtasks s = [] ->
  (1 <= LRUMap.max (cache s))%Z ->
  nullish v = false ->
  (0 <= dt <= defaultTTL s)%Z ->
  3 <= fuel ->
  let p := length (promises s) in
  let '(r1, s1) := get k CreateAsync s in
  let '(r2, s2) := get k create2 (tick dt (run_microtasks fuel s1)) in
  let s3 := run_microtasks fuel (settle p (Fulfilled v) s2) in
  created s2 = created s ++ [CreateAsync] /\
  exists q1 q2, r1 = Normal q1 /\ r2 = Normal q2 /\ q1 <> q2 /\
    promise_state s2 q1 = None /\ promise_state s2 q2 = None /\
    promise_state s3 q1 = Some (Fulfilled (inner v)) /\
    promise_state s3 q2 = Some (Fulfilled (inner v)).
Proof.
  intros Hk Hq Hmax Hn Hdt Hfuel. burn fuel.
  destruct s as [c dflt clk rs ps q cr]; unfold stored in *; cbn in *. subst q.
  destruct (truthy_ttl (field_ttl v)) eqn:Ht; run.
  all: split; [done|]; eexists; eexists;
    (split; [reflexivity|]); (split; [reflexivity|]);
    (split; [lia|]); repeat split; observe; rewrite ?app_nil_r; done.
Qed.

(** Two lookups 10 ms apart on a cache whose default time to live is 50 ms,
    the first producer still pending. *)
Lemma concurrent_misses_share_one_call_witness :
  let s := constructor (Some {| capacity := None; opt_defaultTTL := Some 50%Z |}) 0 in
  let k := "id_1" in
  let create2 := CreateReturns new_value in
  let v := first_value in
  let dt := 10%Z in
  let fuel := 3 in
  let p := length (promises s) in
  let '(r1, s1) := get k CreateAsync s in
  let '(r2, s2) := get k create2 (tick dt (run_microtasks fuel s1)) in
  let s3 := run_microtasks fuel (settle p (Fulfilled v) s2) in
  created s2 = created s ++ [CreateAsync] /\
  exists q1 q2, r1 = Normal q1 /\ r2 = Normal q2 /\ q1 <> q2 /\
    promise_state s2 q1 = None /\ promise_state s2 q2 = None /\
    promise_state s3 q1 = Some (Fulfilled (inner v)) /\
    promise_state s3 q2 = Some (Fulfilled (inner v)).
Proof.
  intros s k create2 v dt fuel.
  apply (concurrent_misses_share_one_call
           s k create2 v dt fuel);
    [ reflexivity | reflexivity | by vm_compute | reflexivity |
      by vm_compute | by vm_compute ].
Defined.

(** X7. The expiry of a new entry counts from the call of [get], not from
    the arrival of the producer's result ([now] is read in [_set] and
    captured by its callback): when the producer takes longer than the time
    to live of its result, the entry is expired as soon as it is filled, and
    the next lookup calls its producer. *)
Theorem expiry_counts_from_the_call (s : state) (k : key) (v : jsval)
    (create2 : producer) (dt : Z) (fuel : nat) :
  stored s k = None ->
  microtasks s = [] ->
  (1 <= LRUMap.max (cache s))%Z ->
  nullish v = false ->
  (ttl_of (defaultTTL s) v < dt)%Z ->
  3 <= fuel ->
  let p := length (promises s) in
  let '(r, s1) := get k CreateAsync s in
  let s2 :=
    run_microtasks fuel
      (settle p (Fulfilled v) (tick dt (run_microtasks fuel s1))) in
  clock s2 = (clock s + dt)%Z /\
  entry s2 k =
    Some {| expires := clock s + ttl_of (defaultTTL s) v; next := None;
            value := Some (p + 1) |} /\
  held s2 k = Some (Fulfilled v) /\
  created (lookup_ k create2 s2) = created s ++ [CreateAsync; create2].
Proof.
  intros Hk Hq Hmax Hn Hdt Hfuel. burn fuel.
  destruct s as [c dflt clk rs ps q cr]; unfold stored in *; cbn in *. subst q.
  unfold ttl_of in *.
  destruct (truthy_ttl (field_ttl v)) eqn:Ht;
    destruct create2 as [e|w|]; run; finish.
Qed.

(** A producer that takes 101 ms to answer with a time to live of 100 ms. *)
Lemma expiry_counts_from_the_call_witness :
  let s := new_cache in
  let k := "id_q" in
  let v := cached_value in
  let create2 := CreateReturns new_value in
  let dt := 101%Z in
  let fuel := 3 in
  let p := length (promises s) in
  let '(r, s1) := get k CreateAsync s in
  let s2 :=
    run_microtasks fuel
      (settle p (Fulfilled v) (tick dt (run_microtasks fuel s1))) in
  clock s2 = (clock s + dt)%Z /\
  entry s2 k =
    Some {| expires := clock s + ttl_of (defaultTTL s) v; next := None;
            value := Some (p + 1) |} /\
  held s2 k = Some (Fulfilled v) /\
  created (lookup_ k create2 s2) = created s ++ [CreateAsync; create2].
Proof.
  intros s k v create2 dt fuel.
  apply (expiry_counts_from_the_call
           s k v create2 dt fuel);
    [ reflexivity | reflexivity | by vm_compute | reflexivity |
      by vm_compute | by vm_compute ].
Defined.

(** ** [clear] *)

(** X8. After [clear] no key is in the store, [dispose] has been called once
    more for each record that was stored, and a lookup of any key, whatever
    the store held for it, is a miss: the producer is called and the lookup
    is answered with its value. *)
Theorem lookup_after_clear_is_a_miss (s : state) (k : key)
    (create : producer) (v : jsval) (fuel : nat) :
  microtasks s = [] ->
  (1 <= LRUMap.max (cache s))%Z ->
  answers create (Fulfilled v) ->
  nullish v = false ->
  3 <= fuel ->
  let s0 := snd (clear s) in
  let p := length (promises s0) in
  let '(r, s1) := get k create s0 in
  let s2 := run_microtasks fuel (complete create p (Fulfilled v) s1) in
  (forall k', stored s0 k' = None) /\
  LRUMap.disposed (cache s0) ≡ₚ
    LRUMap.disposed (cache s) ++ (LRUMap.entries (cache s)).*2 /\
  created s1 = created s ++ [create] /\
  (exists q, r = Normal q /\
     promise_state s2 q = Some (Fulfilled (inner v))) /\
  held s2 k = Some (Fulfilled v).
Proof.
  intros Hq Hmax Hans Hn Hfuel. burn fuel.
  destruct s as [[mx es ds] dflt clk rs ps q cr]; cbn in *. subst q.
  unfold clear, LRUMap.reset. cbv beta delta [modify with_cache snd]. cbn.
  destruct (truthy_ttl (field_ttl v)) eqn:Ht;
    (destruct create as [?|w|]; cbn in Hans; [done | injection Hans as <- |]);
    run; finish.
  all: by rewrite reverse_Permutation.
Qed.

(** The test's cache, cleared after its first lookup. *)
Lemma lookup_after_clear_is_a_miss_witness :
  let s := populated in
  let k := "id_q" in
  let create := CreateReturns new_value in
  let v := new_value in
  let fuel := 3 in
  let s0 := snd (clear s) in
  let p := length (promises s0) in
  let '(r, s1) := get k create s0 in
  let s2 := run_microtasks fuel (complete create p (Fulfilled v) s1) in
  (forall k', stored s0 k' = None) /\
  LRUMap.disposed (cache s0) ≡ₚ
    LRUMap.disposed (cache s) ++ (LRUMap.entries (cache s)).*2 /\
  created s1 = created s ++ [create] /\
  (exists q, r = Normal q /\
     promise_state s2 q = Some (Fulfilled (inner v))) /\
  held s2 k = Some (Fulfilled v).
Proof.
  intros s k create v fuel.
  apply (lookup_after_clear_is_a_miss
           s k create v fuel);
    [ reflexivity | by vm_compute | reflexivity | reflexivity |
      by vm_compute ].
Defined.

(** X9. [clear] does not cancel a population that is under way: the caller
    who started it is still answered with the producer's value.  The
    callback of [_set] does not put the entry back: the key stays out of the
    store, and the next lookup calls its producer. *)
Theorem clear_does_not_cancel_population (s : state) (k : key)
    (v : jsval) (create2 : producer) (dt : Z) (fuel : nat) :
  stored s k = None ->
  microtasks s = [] ->
  (1 <= LRUMap.max (cache s))%Z ->
  nullish v = false ->
  3 <= fuel ->
  let p := length (promises s) in
  let '(r, s1) := get k CreateAsync s in
  let s2 := snd (clear (run_microtasks fuel s1)) in
  let s3 := run_microtasks fuel (settle p (Fulfilled v) (tick dt s2)) in
  (exists q, r = Normal q /\ promise_state s2 q = None /\
     promise_state s3 q = Some (Fulfilled (inner v))) /\
  stored s3 k = None /\
  created (lookup_ k create2 s3) = created s ++ [CreateAsync; create2].
Proof.
  intros Hk Hq Hmax Hn Hfuel. burn fuel.
  destruct s as [[mx es ds] dflt clk rs ps q cr]; unfold stored in *;
    cbn in *. subst q.
  run.
  unfold clear, LRUMap.reset. cbv beta delta [modify with_cache snd]. cbn.
  destruct (truthy_ttl (field_ttl v)) eqn:Ht;
    destruct create2 as [e|w|]; run; finish.
Qed.

(** A new cache cleared while its first producer is pending. *)
Lemma clear_does_not_cancel_population_witness :
  let s := new_cache in
  let k := "id_1" in
  let v := first_value in
  let create2 := CreateReturns new_value in
  let dt := 0%Z in
  let fuel := 3 in
  let p := length (promises s) in
  let '(r, s1) := get k CreateAsync s in
  let s2 := snd (clear (run_microtasks fuel s1)) in
  let s3 := run_microtasks fuel (settle p (Fulfilled v) (tick dt s2)) in
  (exists q, r = Normal q /\ promise_state s2 q = None /\
     promise_state s3 q = Some (Fulfilled (inner v))) /\
  stored s3 k = None /\
  created (lookup_ k create2 s3) = created s ++ [CreateAsync; create2].
Proof.
  intros s k v create2 dt fuel.
  apply (clear_does_not_cancel_population
           s k v create2 dt fuel);
    [ reflexivity | reflexivity | by vm_compute | reflexivity |
      by vm_compute ].
Defined.

(** ** What the promise callbacks leave alone *)

Section Frame.
Context {A : Type} (f : state -> A).
Hypothesis f_records : forall x s, f (with_records x s) = f s.
Hypothesis f_promises : forall x s, f (with_promises x s) = f s.
Hypothesis f_microtasks : forall x s, f (with_microtasks x s) = f s.

Lemma keeps_ret {B} (b : B) : keeps f (ret b).
Proof. done. Qed.

Lemma keeps_throw {B} (e : error) : keeps f (@throw B e).
Proof. done. Qed.

Lemma keeps_gets {B} (g : state -> B) : keeps f (gets g).
Proof. done. Qed.

Lemma keeps_modify (g : state -> state) :
  (forall s, f (g s) = f s) -> keeps f (modify g).
Proof. intros H s. apply H. Qed.

Lemma keeps_bind {B C} (m : M B) (k : B -> M C) :
  keeps f m -> (forall b, keeps f (k b)) -> keeps f (bind m k).
Proof.
  intros Hm Hk s. unfold bind. specialize (Hm s).
  destruct (m s) as [[b|e] s']; cbn in *; [|done].
  by rewrite Hk.
Qed.

Lemma keeps_new_promise o : keeps f (new_promise o).
Proof. intros s. apply f_promises. Qed.

Lemma keeps_then p cb : keeps f (then_ p cb).
Proof.
  unfold then_. apply keeps_bind; [apply keeps_new_promise|]. intros d.
  apply keeps_bind; [|intros; apply keeps_ret].
  apply keeps_modify. intros s.
  destruct (promises s !! p) as [[[o|] rs]|]; auto.
Qed.

Lemma keeps_read l : keeps f (read l).
Proof. intros s. unfold read. by destruct (records s !! l). Qed.

Lemma keeps_update l g : keeps f (update l g).
Proof. apply keeps_modify. intros s. apply f_records. Qed.

Lemma keeps_prop_ttl v : keeps f (prop_ttl v).
Proof. by destruct v. Qed.

Lemma keeps_prop_value v : keeps f (prop_value v).
Proof. by destruct v. Qed.

Lemma keeps_return_inner l : keeps f (return_inner l).
Proof.
  unfold return_inner. apply keeps_bind; [apply keeps_read|]. intros r.
  destruct (value r); [apply keeps_then | apply keeps_throw].
Qed.

Lemma keeps_run_callback cb v : keeps f (run_callback cb v).
Proof.
  destruct cb as [l now|l|]; unfold run_callback.
  - apply keeps_bind; [apply keeps_prop_ttl|]. intros t.
    apply keeps_bind; [|intros; apply keeps_ret].
    destruct (truthy_ttl t); [apply keeps_update | apply keeps_ret].
  - destruct (negb (truthy v)); [apply keeps_throw|].
    repeat first
      [ apply keeps_bind; [|intros ?]
      | apply keeps_read | apply keeps_update | apply keeps_gets
      | apply keeps_prop_ttl | apply keeps_ret ].
  - apply keeps_prop_value.
Qed.

Lemma settle_frame p o s : f (settle p o s) = f s.
Proof.
  unfold settle. destruct (promises s !! p) as [[[o'|] rs]|]; try done.
  by rewrite f_microtasks, f_promises.
Qed.

Lemma run_job_frame j s : f (run_job j s) = f s.
Proof.
  unfold run_job. destruct (job_arg j) as [v|e]; [|apply settle_frame].
  pose proof (keeps_run_callback (job_handler j) v s) as H.
  destruct (run_callback (job_handler j) v s) as [[w|e] s']; cbn in H;
    by rewrite settle_frame.
Qed.

Lemma run_microtasks_frame fuel s : f (run_microtasks fuel s) = f s.
Proof.
  revert s; induction fuel as [|fuel IH]; intros s; [done|].
  destruct (microtasks s) as [|j q] eqn:Hq.
  - by rewrite run_microtasks_idle.
  - rewrite (run_microtasks_next fuel s j q Hq), IH, run_job_frame.
    apply f_microtasks.
Qed.

Hypothesis f_created : forall x s, f (with_created x s) = f s.

Lemma keeps_Promise_resolve_create create :
  keeps f (Promise_resolve_create create).
Proof.
  destruct create; unfold Promise_resolve_create;
    (apply keeps_bind; [by apply keeps_modify|]); intros _;
    first [apply keeps_throw | by apply keeps_new_promise].
Qed.

(** The part of a lookup that follows the read of the store. *)
Ltac keeps_step :=
  first
    [ apply keeps_ret | apply keeps_throw | apply keeps_gets
    | by apply keeps_read | by apply keeps_update
    | by apply keeps_then | by apply keeps_return_inner
    | by apply keeps_new_promise
    | apply keeps_Promise_resolve_create
    | apply keeps_bind; [|intros ?]
    | match goal with
      | |- keeps _ (if ?b then _ else _) => destruct b
      | |- keeps _ (match ?x with _ => _ end) => destruct x
      end ].

Lemma get_hit_frame k l create s :
  stored s k = Some l ->
  f (snd (get k create s)) = f (with_cache (LRUMap.touch k l (cache s)) s).
Proof.
  intros Hk. unfold get. unfold bind at 1. unfold cache_get.
  rewrite (LRUMapFacts.get_found k l _ Hk).
  match goal with
  | |- f (snd (?m ?s1)) = _ =>
      assert (Hm : keeps f m); [|exact (Hm s1)]
  end.
  repeat keeps_step.
Qed.

Lemma get_miss_throw_frame k e s :
  stored s k = None -> f (snd (get k (CreateThrows e) s)) = f s.
Proof.
  intros Hk. unfold get. unfold bind at 1. unfold cache_get.
  rewrite (LRUMapFacts.get_missing k _ Hk). destruct s. cbn. apply f_created.
Qed.

Hypothesis f_cache : forall x s, f (with_cache x s) = f s.

Lemma keeps_cache_get k : keeps f (cache_get k).
Proof.
  intros s. unfold cache_get. destruct (LRUMap.get k (cache s)). apply f_cache.
Qed.

Lemma keeps_cache_set k l : keeps f (cache_set k l).
Proof. intros s. apply f_cache. Qed.

Lemma keeps_set k p : keeps f (_set k p).
Proof.
  unfold _set.
  repeat first
    [ apply keeps_gets | apply keeps_ret | by apply keeps_then
    | apply keeps_cache_set
    | apply keeps_modify; intros ?; apply f_records
    | apply keeps_bind; [|intros ?] ].
Qed.

Lemma keeps_get k create : keeps f (get k create).
Proof.
  unfold get. apply keeps_bind; [apply keeps_cache_get|]. intros [l|].
  - repeat keeps_step.
  - apply keeps_bind; [by apply keeps_Promise_resolve_create|]. intros p.
    apply keeps_bind; [apply keeps_set|]. intros l.
    by apply keeps_return_inner.
Qed.
End Frame.

(** X10. The promise callbacks call no producer and leave the store alone:
    running queued jobs changes neither the log of producer calls, nor the
    store (its entries, their order, the calls of [dispose]), nor the
    settings.  Producers are called by [get] only, and entries are added and
    evicted by [get] and [clear] only. *)
Theorem callbacks_leave_store_and_producers_alone (fuel : nat) (s : state) :
  let s' := run_microtasks fuel s in
  created s' = created s /\
  cache s' = cache s /\
  defaultTTL s' = defaultTTL s /\
  clock s' = clock s.
Proof.
  cbv zeta. repeat split; by apply run_microtasks_frame.
Qed.

(** What a lookup does to the store. *)
Lemma get_store k create s :
  cache (snd (get k create s)) =
    match stored s k with
    | Some l => LRUMap.touch k l (cache s)
    | None =>
        if throws create then cache s
        else LRUMap.set k (length (records s)) (cache s)
    end.
Proof.
  destruct (stored s k) as [l|] eqn:Hk.
  - by apply (get_hit_frame cache).
  - destruct (throws create) eqn:Hc.
    + destruct create; try done. by apply (get_miss_throw_frame cache).
    + by destruct (cold_miss_store s k create Hk Hc) as [? _].
Qed.

(** The settings of a cache do not change. *)
Lemma step_settings s s' :
  step s s' ->
  LRUMap.max (cache s') = LRUMap.max (cache s) /\
  defaultTTL s' = defaultTTL s.
Proof.
  intros [k create s0|s0|p o s0|j q s0 Hq|dt s0].
  - split; [|by apply (keeps_get defaultTTL)].
    rewrite get_store. destruct (stored s0 k); [done|].
    by destruct (throws create).
  - done.
  - split; [|by apply (settle_frame defaultTTL)].
    by rewrite (settle_frame cache).
  - split; [|by rewrite (run_job_frame defaultTTL)].
    by rewrite (run_job_frame cache).
  - done.
Qed.

Lemma reachable_settings opts s :
  reachable opts s ->
  LRUMap.max (cache s) = or_default (opts ≫= capacity) 5000 /\
  defaultTTL s = or_default (opts ≫= opt_defaultTTL) 0.
Proof.
  induction 1 as [t0|s s' _ [IH1 IH2] Hstep]; [done|].
  destruct (step_settings s s' Hstep) as [-> ->]. done.
Qed.

(** ** Runs of a cache *)

Lemma reachable_lookup opts k create s :
  reachable opts s -> reachable opts (lookup_ k create s).
Proof. intros H. eapply reachable_step; [exact H | apply step_get]. Qed.

Lemma reachable_tick opts dt s :
  reachable opts s -> reachable opts (tick dt s).
Proof. intros H. eapply reachable_step; [exact H | apply step_tick]. Qed.

Lemma reachable_run_microtasks opts fuel s :
  reachable opts s -> reachable opts (run_microtasks fuel s).
Proof.
  revert s; induction fuel as [|fuel IH]; intros s H; [done|].
  destruct (microtasks s) as [|j q] eqn:Hq.
  - by rewrite run_microtasks_idle.
  - rewrite (run_microtasks_next fuel s j q Hq). apply IH.
    eapply reachable_step; [exact H | by apply step_job].
Qed.

Lemma reachable_stale : reachable None stale.
Proof.
  apply reachable_tick, reachable_run_microtasks, reachable_lookup,
    reachable_new.
Qed.

Lemma reachable_two_keys : reachable two_keys_options two_keys.
Proof. apply reachable_lookup, reachable_lookup, reachable_new. Qed.

(** ** The states a cache can be in *)

Lemma callback_ok_mono nr nr' cb :
  nr <= nr' -> callback_ok nr cb -> callback_ok nr' cb.
Proof. destruct cb; cbn; lia. Qed.

Lemma pid_ok_mono np np' o : np <= np' -> pid_ok np o -> pid_ok np' o.
Proof. destruct o; cbn; lia. Qed.

Lemma record_ok_mono np np' r :
  np <= np' -> record_ok np r -> record_ok np' r.
Proof. intros ? [? ?]. split; by eapply pid_ok_mono. Qed.

Lemma reaction_ok_mono nr np nr' np' r :
  nr <= nr' -> np <= np' -> reaction_ok nr np r -> reaction_ok nr' np' r.
Proof. intros ? ? [? ?]. split; [by eapply callback_ok_mono | lia]. Qed.

Lemma job_ok_mono nr np nr' np' j :
  nr <= nr' -> np <= np' -> job_ok nr np j -> job_ok nr' np' j.
Proof. intros ? ? [? ?]. split; [by eapply callback_ok_mono | lia]. Qed.

Lemma promise_ok_mono nr np nr' np' p :
  nr <= nr' -> np <= np' -> promise_ok nr np p -> promise_ok nr' np' p.
Proof.
  intros ? ? [H ?]. split; [|done].
  eapply Forall_impl; [exact H|]. intros r. by apply reaction_ok_mono.
Qed.

Lemma jobs_ok nr np o rs :
  Forall (reaction_ok nr np) rs -> Forall (job_ok nr np) (jobs_of o rs).
Proof. intros H. unfold jobs_of. apply Forall_fmap. exact H. Qed.

Lemma Forall_sublist {A} (P : A -> Prop) (l k : list A) :
  l `sublist_of` k -> Forall P k -> Forall P l.
Proof.
  rewrite !Forall_forall. intros Hs H x Hx. apply H.
  by eapply elem_of_sublist.
Qed.

Lemma take_drop_snoc {A} (l : list A) (x : A) (n : nat) :
  n = length l -> take n (l ++ [x]) = l /\ drop n (l ++ [x]) = [x].
Proof.
  intros ->. by rewrite take_app_length, drop_app_length.
Qed.

Module StoreFacts.
Import LRUMap.

Lemma remove_sublist k es : remove k es `sublist_of` es.
Proof.
  induction es as [|[k' l'] es IH]; cbn; [done|].
  destruct (String.eqb k k'); [by apply sublist_cons | by apply sublist_skip].
Qed.

Lemma find_Some_elem k l es : find k es = Some l -> (k, l) ∈ es.
Proof.
  induction es as [|[k' l'] es IH]; cbn; [done|].
  destruct (String.eqb_spec k k') as [->|Hne].
  - intros [= ->]. left.
  - intros H. right. auto.
Qed.

Lemma remove_key k es : k ∉ (remove k es).*1.
Proof.
  induction es as [|[k' l'] es IH]; cbn; [apply not_elem_of_nil|].
  destruct (String.eqb_spec k k') as [->|Hne]; [done|].
  cbn. rewrite not_elem_of_cons. done.
Qed.

Lemma remove_loc k l es :
  NoDup es.*2 -> find k es = Some l -> l ∉ (remove k es).*2.
Proof.
  induction es as [|[k' l'] es IH]; cbn; [done|].
  intros Hnd. apply NoDup_cons in Hnd as [Hl' Hnd].
  destruct (String.eqb_spec k k') as [->|Hne].
  - intros [= ->]. intros Hin. apply Hl'.
    eapply elem_of_sublist; [exact Hin|]. apply fmap_sublist, remove_sublist.
  - intros Hf. cbn. rewrite not_elem_of_cons. split; [|by apply IH].
    intros ->. apply Hl'. apply find_Some_elem in Hf.
    by apply (list_elem_of_fmap_2 snd) in Hf.
Qed.

Lemma remove_length k l es :
  NoDup es.*1 -> find k es = Some l -> S (length (remove k es)) = length es.
Proof.
  induction es as [|[k' l'] es IH]; cbn; [done|].
  intros Hnd. apply NoDup_cons in Hnd as [Hk' Hnd].
  destruct (String.eqb_spec k k') as [->|Hne].
  - intros _. f_equal. apply (f_equal length).
    apply LRUMapFacts.remove_absent, LRUMapFacts.find_None, Hk'.
  - intros Hf. cbn. f_equal. by apply IH.
Qed.

Lemma find_inj k k' l es :
  NoDup es.*2 -> find k es = Some l -> find k' es = Some l -> k = k'.
Proof.
  induction es as [|[k0 l0] es IH]; cbn; [done|].
  intros Hnd. apply NoDup_cons in Hnd as [Hl0 Hnd].
  destruct (String.eqb_spec k k0) as [->|Hk],
    (String.eqb_spec k' k0) as [->|Hk']; try done.
  - intros [= ->] Hf. exfalso. apply Hl0.
    apply find_Some_elem in Hf. by apply (list_elem_of_fmap_2 snd) in Hf.
  - intros Hf [= ->]. exfalso. apply Hl0.
    apply find_Some_elem in Hf. by apply (list_elem_of_fmap_2 snd) in Hf.
  - by apply IH.
Qed.

Lemma find_take k n es :
  find k (take n es) = None \/ find k (take n es) = find k es.
Proof.
  revert n; induction es as [|[k0 l0] es IH]; intros [|n]; cbn; auto.
  destruct (String.eqb k k0); auto.
Qed.

Lemma find_app k es es' :
  find k (es ++ es') =
    match find k es with Some l => Some l | None => find k es' end.
Proof.
  induction es as [|[k0 l0] es IH]; cbn; [done|].
  by destruct (String.eqb k k0).
Qed.

Lemma store_ok_create nr mx : store_ok nr (create mx).
Proof. repeat split; cbn; try constructor. lia. Qed.

Lemma store_ok_reset nr m : store_ok nr m -> store_ok nr (reset m).
Proof. intros _. repeat split; cbn; try constructor. lia. Qed.

Lemma find_lt nr k l m :
  store_ok nr m -> find k (entries m) = Some l -> l < nr.
Proof.
  intros (H1 & _) Hf. apply find_Some_elem in Hf.
  rewrite Forall_forall in H1. exact (H1 _ Hf).
Qed.

Lemma store_ok_touch nr k l m :
  store_ok nr m -> find k (entries m) = Some l -> store_ok nr (touch k l m).
Proof.
  intros Hm Hf. pose proof (find_lt _ _ _ _ Hm Hf) as Hl.
  destruct Hm as (H1 & H2 & H3 & H4). repeat split; cbn.
  - apply Forall_cons. split; [done|].
    eapply Forall_sublist; [apply remove_sublist | exact H1].
  - apply NoDup_cons. split; [apply remove_key|].
    eapply sublist_NoDup; [exact H2 | apply fmap_sublist, remove_sublist].
  - apply NoDup_cons. split; [by apply remove_loc|].
    eapply sublist_NoDup; [exact H3 | apply fmap_sublist, remove_sublist].
  - pose proof (remove_length k l _ H2 Hf). unfold touch. cbn. lia.
Qed.

Lemma store_ok_set nr k m :
  store_ok nr m -> find k (entries m) = None -> store_ok (S nr) (set k nr m).
Proof.
  intros (H1 & H2 & H3 & H4) Hf.
  rewrite LRUMapFacts.set_absent by done.
  assert (Hsub : take (Z.to_nat (max m)) ((k, nr) :: entries m)
                 `sublist_of` (k, nr) :: entries m) by apply sublist_take.
  assert (F : Forall (fun kl : key * loc => kl.2 < S nr)
                ((k, nr) :: entries m)).
  { apply Forall_cons. split; [cbn; lia|].
    eapply Forall_impl; [exact H1|]. intros [? ?] ?; cbn in *; lia. }
  repeat split; cbn [entries max].
  - eapply Forall_sublist; [exact Hsub | exact F].
  - eapply sublist_NoDup; [|apply fmap_sublist, Hsub].
    cbn. apply NoDup_cons. split; [by apply LRUMapFacts.find_None | done].
  - eapply sublist_NoDup; [|apply fmap_sublist, Hsub].
    cbn. apply NoDup_cons. split; [|done].
    intros Hin. apply list_elem_of_fmap in Hin as ([k' l'] & -> & Hin).
    rewrite Forall_forall in H1. specialize (H1 _ Hin). cbn in H1. lia.
  - rewrite length_take. lia.
Qed.

End StoreFacts.

Lemma wf_lookup_record (s : state) (l : loc) :
  wf s -> l < length (records s) ->
  exists r, records s !! l = Some r /\ record_ok (length (promises s)) r.
Proof.
  intros [_ Hr _ _] Hl. destruct (lookup_lt_is_Some_2 _ _ Hl) as [r Hlr].
  exists r. split; [done|]. rewrite Forall_lookup in Hr. by eapply Hr.
Qed.

Lemma wf_lookup_promise (s : state) (p : pid) :
  wf s -> p < length (promises s) ->
  exists pr, promises s !! p = Some pr /\
    promise_ok (length (records s)) (length (promises s)) pr.
Proof.
  intros [_ _ Hp _] Hl. destruct (lookup_lt_is_Some_2 _ _ Hl) as [r Hlr].
  exists r. split; [done|]. rewrite Forall_lookup in Hp. by eapply Hp.
Qed.

(** The record a hit finds, and the promise it holds. *)
Lemma wf_hit (s : state) (k : key) (l : loc) :
  wf s -> stored s k = Some l ->
  exists ex nx vl,
    records s !! l = Some {| expires := ex; next := nx; value := vl |} /\
    pid_ok (length (promises s)) vl /\
    pid_ok (length (promises s)) nx /\
    match vl with
    | Some p => exists o rsx,
        promises s !! p = Some {| outcome := o; reactions := rsx |}
    | None => True
    end.
Proof.
  intros H Hk.
  assert (Hl : l < length (records s)).
  { destruct H as [Hst _ _ _]. by eapply StoreFacts.find_lt. }
  destruct (wf_lookup_record s l H Hl) as ([ex nx vl] & Hrl & Hrv & Hrn).
  exists ex, nx, vl. repeat split; try done.
  destruct vl as [p|]; [|done]. cbn in Hrv.
  destruct (wf_lookup_promise s p H Hrv) as ([o rsx] & Hp & Hok).
  by exists o, rsx.
Qed.

(** Well-formedness of a state that has been evaluated. *)
Ltac lengths :=
  rewrite ?length_app, ?length_insert, ?length_alter; cbn [length]; try lia.

Ltac ok_leaf :=
  lazymatch goal with
  | |- record_ok _ _ =>
      unfold set_next, set_value, set_expires;
      split; cbn; lengths; try done
  | |- reaction_ok _ _ _ => split; cbn; lengths; try done
  | |- job_ok _ _ _ => split; cbn; lengths; try done
  | |- promise_ok _ _ _ => split; cbn; [|first [done | by intros [? [=]]]]
  | |- _ < _ => cbn; lengths
  end.

Ltac ok_list :=
  repeat first
    [ apply Forall_nil_2
    | apply Forall_app_2
    | apply Forall_cons_2
    | apply Forall_insert
    | apply Forall_alter; [|intros ? _ [? ?]]
    | apply jobs_ok
    | eapply Forall_impl;
        [ eassumption
        | intros ?;
          first [ apply record_ok_mono; lengths
                | apply promise_ok_mono; lengths
                | apply job_ok_mono; lengths
                | apply reaction_ok_mono; lengths ] ]
    | progress ok_leaf ].

Lemma wf_settle p o s : wf s -> wf (settle p o s).
Proof.
  intros H. unfold settle.
  destruct (promises s !! p) as [[[o'|] rs]|] eqn:Hpp; try done.
  assert (Hrs : promise_ok (length (records s)) (length (promises s))
                  {| outcome := None; reactions := rs |}).
  { destruct H as [_ _ Hp _]. rewrite Forall_lookup in Hp. by eapply Hp. }
  destruct Hrs as [Hrs _]. cbn in Hrs.
  destruct H as [Hst Hr Hp Hq]. destruct s; cbn in *.
  constructor; cbn; rewrite ?length_insert; try done; ok_list.
Qed.

Lemma wf_tick dt s : wf s -> wf (tick dt s).
Proof. intros [? ? ? ?]. by constructor. Qed.

Lemma wf_clear s : wf s -> wf (snd (clear s)).
Proof.
  intros [? ? ? ?]. constructor; try done. by apply StoreFacts.store_ok_reset.
Qed.

Lemma wf_constructor opts t0 : wf (constructor opts t0).
Proof.
  constructor; cbn; try apply Forall_nil_2. apply StoreFacts.store_ok_create.
Qed.

Lemma wf_run_callback cb v s :
  wf s -> callback_ok (length (records s)) cb ->
  wf (snd (run_callback cb v s)).
Proof.
  intros H Hcb. destruct cb as [l now|l|]; cbn in Hcb.
  - destruct (wf_lookup_record s l H Hcb) as ([ex nx vl] & Hl & Hrv & Hrn).
    destruct H as [Hst Hr Hp Hq].
    destruct s as [c dflt clk rs ps q cr]; cbn in *.
    cases_jsval v; exec; constructor; cbn; lengths; try done; ok_list.
  - destruct (wf_lookup_record s l H Hcb) as ([ex nx vl] & Hl & Hrv & Hrn).
    destruct H as [Hst Hr Hp Hq].
    destruct s as [c dflt clk rs ps q cr]; cbn in *.
    destruct (truthy v) eqn:Hv; exec; constructor; cbn; lengths; try done;
      ok_list.
  - destruct H as [Hst Hr Hp Hq].
    destruct s as [c dflt clk rs ps q cr]; cbn in *.
    destruct v; exec; by constructor.
Qed.

Lemma wf_run_job j q s :
  wf s -> microtasks s = j :: q -> wf (run_job j (with_microtasks q s)).
Proof.
  intros [Hst Hr Hp Hq] Hjq. rewrite Hjq in Hq.
  apply Forall_cons in Hq as [[Hcb Hd] Hq].
  assert (H' : wf (with_microtasks q s)) by (by constructor).
  unfold run_job. destruct (job_arg j) as [v|e]; [|by apply wf_settle].
  pose proof (wf_run_callback (job_handler j) v _ H' Hcb) as Hw.
  destruct (run_callback (job_handler j) v (with_microtasks q s))
    as [[w|e] s']; cbn in Hw; by apply wf_settle.
Qed.

Lemma wf_get k create s : wf s -> wf (snd (get k create s)).
Proof.
  intros H.
  destruct (stored s k) as [l|] eqn:Hk.
  - destruct (wf_hit s k l H Hk) as (ex & nx & vl & Hrl & Hrv & Hrn & Hvl).
    assert (Hl : l < length (records s)) by (by eapply lookup_lt_Some).
    assert (Hvl' : match vl with
                   | Some p => exists o rsx,
                       promises s !! p =
                         Some {| outcome := o; reactions := rsx |} /\
                       promise_ok (length (records s)) (length (promises s))
                         {| outcome := o; reactions := rsx |}
                   | None => True
                   end).
    { destruct vl as [p|]; [|done]. destruct Hvl as (o & rsx & Hp).
      exists o, rsx. split; [done|].
      destruct H as [_ _ Hps _]. rewrite Forall_lookup in Hps.
      by eapply Hps. }
    clear Hvl.
    destruct H as [Hst Hr Hp Hq].
    pose proof (StoreFacts.store_ok_touch _ _ _ _ Hst Hk) as Hst'.
    destruct s as [c dflt clk rs ps q cr]; unfold stored in *; cbn in *.
    destruct (Z.lt_ge_cases ex clk) as [Hexp|Hexp];
      destruct create as [e|w|], vl as [pv|];
      try destruct Hvl' as ([o|] & rsx & Hpv & Hrsx & Hset);
      run; cbn; constructor; cbn; lengths; try done; ok_list.
    all: unfold pid_ok in *; lia.
  - destruct H as [Hst Hr Hp Hq].
    pose proof (StoreFacts.store_ok_set _ _ _ Hst Hk) as Hst'.
    destruct s as [c dflt clk rs ps q cr]; unfold stored in *; cbn in *.
    destruct create as [e|w|];
      run; cbn; constructor; cbn; lengths; try done; ok_list.
    all: by rewrite Nat.add_1_r.
Qed.

Lemma wf_step s s' : wf s -> step s s' -> wf s'.
Proof.
  intros H Hs. revert H.
  destruct Hs as [k create s0|s0|p o s0|j q s0 Hq|dt s0]; intros H.
  - by apply wf_get.
  - by apply wf_clear.
  - by apply wf_settle.
  - by apply wf_run_job.
  - by apply wf_tick.
Qed.

Lemma reachable_wf opts s : reachable opts s -> wf s.
Proof.
  induction 1 as [t0|s s' _ IH Hstep]; [apply wf_constructor|].
  by eapply wf_step.
Qed.

(** X11. Every state that a cache reaches by lookups (returning or
    throwing), clears, settlements of promises, promise jobs and the passing
    of time is well formed: the store names each key once and distinct keys
    hold distinct records, every record the store names and every record and
    promise that a record, a reaction or a queued job names has been
    allocated, and a settled promise has no reaction left. *)
Theorem reachable_states_are_well_formed (opts : option options)
    (s : state) :
  reachable opts s -> wf s.
Proof.
  induction 1 as [t0|s s' _ IH Hstep].
  - apply wf_constructor.
  - destruct Hstep as [k create s0|s0|p o s0|j q s0 Hq|dt s0].
    + by apply wf_get.
    + by apply wf_clear.
    + by apply wf_settle.
    + by apply wf_run_job.
    + by apply wf_tick.
Qed.

(** The test's cache at time 101. *)
Lemma reachable_states_are_well_formed_witness :
  let opts := @None options in
  let s := stale in
  wf s.
Proof.
  intros opts s.
  apply (reachable_states_are_well_formed
           opts s);
    [ exact reachable_stale ].
Defined.

(** X12. The settings of a cache are those its constructor computed, for
    good: the capacity is [options.capacity], and 5000 when that is absent or
    0; [defaultTTL] is [options.defaultTTL], and 0 when absent.  A store of
    positive capacity never holds more entries than that. *)
Theorem settings_are_fixed_and_capacity_is_kept (opts : option options)
    (s : state) :
  reachable opts s ->
  let N := or_default (opts ≫= capacity) 5000 in
  LRUMap.max (cache s) = N /\
  defaultTTL s = or_default (opts ≫= opt_defaultTTL) 0 /\
  ((0 < N)%Z -> (Z.of_nat (length (LRUMap.entries (cache s))) <= N)%Z).
Proof.
  intros H N. destruct (reachable_settings opts s H) as [Hmax Hd].
  split; [done|]. split; [done|]. intros HN.
  destruct (reachable_wf opts s H) as [(_ & _ & _ & Hsize) _ _ _].
  rewrite Hmax in Hsize. specialize (Hsize HN). fold N in Hsize. lia.
Qed.

(** The cache of capacity 2 holding two keys. *)
Lemma settings_are_fixed_and_capacity_is_kept_witness :
  let opts := two_keys_options in
  let s := two_keys in
  let N := or_default (opts ≫= capacity) 5000 in
  LRUMap.max (cache s) = N /\
  defaultTTL s = or_default (opts ≫= opt_defaultTTL) 0 /\
  ((0 < N)%Z -> (Z.of_nat (length (LRUMap.entries (cache s))) <= N)%Z).
Proof.
  intros opts s.
  apply (settings_are_fixed_and_capacity_is_kept
           opts s);
    [ exact reachable_two_keys ].
Defined.

(** X13. In a state a cache can be in, [get] either returns a promise that
    it has just made and that is still pending, or throws; and it throws
    only the error of a producer that threw (called on a miss or on an
    expired hit), or a [TypeError] because the entry's [value] is [null]. *)
Theorem lookup_returns_a_new_promise_or_throws (opts : option options)
    (s : state) (k : key) (create : producer) :
  reachable opts s ->
  match get k create s with
  | (Normal q, s') =>
      length (promises s) <= q < length (promises s') /\
      promise_state s' q = None
  | (Throw e, s') =>
      (create = CreateThrows e /\
       forall rec, entry s k = Some rec -> (expires rec < clock s)%Z) \/
      (exists rec msg,
         entry s k = Some rec /\ value rec = None /\ e = TypeError msg)
  end.
Proof.
  intros H. apply reachable_wf in H.
  destruct (stored s k) as [l|] eqn:Hk.
  - destruct (wf_hit s k l H Hk) as (ex & nx & vl & Hrl & Hrv & Hrn & Hvl).
    clear H.
    assert (He : entry s k = Some {| expires := ex; next := nx; value := vl |}).
    { unfold entry. rewrite Hk. exact Hrl. }
    rewrite He. clear He.
    destruct s as [c dflt clk rs ps q cr]; unfold stored in *; cbn in *.
    destruct (Z.lt_ge_cases ex clk) as [Hexp|Hexp];
      destruct create as [e|w|], vl as [pv|];
      try destruct Hvl as ([o|] & rsx & Hpv);
      run; cbn.
    all: try (split; [rewrite !length_app, ?length_insert; cbn; lia|];
              observe; done).
    all: try (left; split; [done|]; by intros ? [= <-]).
    all: try (right; eexists; eexists; done).
  - assert (He : entry s k = None) by (unfold entry; by rewrite Hk).
    rewrite He.
    destruct s as [c dflt clk rs ps q cr]; unfold stored in *; cbn in *.
    destruct create as [e|w|]; run; cbn.
    all: try (split; [rewrite !length_app, ?length_insert; cbn; lia|];
              observe; done).
    left. done.
Qed.

(** A lookup of the test's expired entry. *)
Lemma lookup_returns_a_new_promise_or_throws_witness :
  let opts := @None options in
  let s := stale in
  let k := "id_q" in
  let create := CreateAsync in
  match get k create s with
  | (Normal q, s') =>
      length (promises s) <= q < length (promises s') /\
      promise_state s' q = None
  | (Throw e, s') =>
      (create = CreateThrows e /\
       forall rec, entry s k = Some rec -> (expires rec < clock s)%Z) \/
      (exists rec msg,
         entry s k = Some rec /\ value rec = None /\ e = TypeError msg)
  end.
Proof.
  intros opts s k create.
  apply (lookup_returns_a_new_promise_or_throws
           opts s k create);
    [ exact reachable_stale ].
Defined.

(** ** Refreshes that fail *)

(** X5. A refresh that fails, its producer's promise rejected or fulfilled
    with a falsy result, rejects the promise [d] that
    [cacheRecord.next.then] made, with the producer's error or with the
    error of the callback, and nothing handles that rejection.  From the
    return of [get] until the failure arrives [d] is pending with no
    reaction registered; [get] has not returned it and no record names it,
    so that no later call can reach it; and when it is rejected no job is
    queued for it.  The entry keeps its value and its expiry, whatever its
    value is. *)
Theorem failed_refresh_is_unhandled (s : state) (k : key)
    (rec : cacheRecord) (o : settled) (fuel : nat) :
  wf s ->
  entry s k = Some rec ->
  microtasks s = [] ->
  (expires rec < clock s)%Z ->
  match o with Fulfilled v => truthy v = false | Rejected _ => True end ->
  1 <= fuel ->
  let p := length (promises s) in
  let d := p + 1 in
  let '(r, s1) := get k CreateAsync s in
  let s1' := run_microtasks fuel s1 in
  let s2 := run_microtasks fuel (settle p o s1') in
  promises s1 !! d = Some {| outcome := None; reactions := [] |} /\
  promises s1' !! d = Some {| outcome := None; reactions := [] |} /\
  r <> Normal d /\
  Forall (fun x => value x <> Some d /\ next x <> Some d) (records s2) /\
  promises s2 !! d =
    Some {| outcome :=
              Some (Rejected
                      match o with
                      | Rejected e => e
                      | Fulfilled _ =>
                          Error "Cacheable item should return an object with at least a `value` property"
                      end);
            reactions := [] |} /\
  microtasks s2 = [] /\
  entry s2 k = Some (set_next (Some p) rec).
Proof.
  intros H He Hq Hexp Ho Hfuel. burn fuel.
  unfold entry in He. destruct (stored s k) as [l|] eqn:Hk; [|done].
  cbn in He.
  destruct (wf_hit s k l H Hk) as (ex & nx & vl & Hl & Hrv & Hrn & Hvl).
  rewrite Hl in He. injection He as <-.
  assert (Hrs : Forall (fun x => value x <> Some (length (promises s) + 1) /\
                                 next x <> Some (length (promises s) + 1))
                  (records s)).
  { destruct H as [_ Hr _ _]. eapply Forall_impl; [exact Hr|].
    intros [ex' [n|] [v|]] [Hv Hn]; cbn in *; split; try done;
      intros [= ->]; lia. }
  clear H.
  destruct s as [c dflt clk rs ps q cr]; unfold stored in *; cbn in *.
  subst q.
  assert (Hnew : forall x : pid, x < length ps -> Some x <> Some (length ps + 1))
    by (intros x Hx [= ->]; lia).
  destruct o as [v|e];
    (destruct vl as [pv|];
     [destruct Hvl as ([[v0|e0]|] & rsx & Hpv); try cases_nullish v0|]);
    run; repeat split; try (intros [= Hr]; lia);
    try (apply Forall_insert; [exact Hrs|]; cbn; split; try done;
         first [by apply Hnew | intros [= Hr]; lia]);
    observe; rewrite ?app_nil_r; try done.
Qed.

(** A refresh of the test's expired entry whose producer fails. *)
Lemma failed_refresh_is_unhandled_witness :
  let s := stale in
  let k := "id_q" in
  let rec := stale_record in
  let o := Rejected boom in
  let fuel := 1 in
  let p := length (promises s) in
  let d := p + 1 in
  let '(r, s1) := get k CreateAsync s in
  let s1' := run_microtasks fuel s1 in
  let s2 := run_microtasks fuel (settle p o s1') in
  promises s1 !! d = Some {| outcome := None; reactions := [] |} /\
  promises s1' !! d = Some {| outcome := None; reactions := [] |} /\
  r <> Normal d /\
  Forall (fun x => value x <> Some d /\ next x <> Some d) (records s2) /\
  promises s2 !! d =
    Some {| outcome :=
              Some (Rejected
                      match o with
                      | Rejected e => e
                      | Fulfilled _ =>
                          Error "Cacheable item should return an object with at least a `value` property"
                      end);
            reactions := [] |} /\
  microtasks s2 = [] /\
  entry s2 k = Some (set_next (Some p) rec).
Proof.
  intros s k rec o fuel.
  apply (failed_refresh_is_unhandled
           s k rec o fuel);
    [ exact (reachable_wf None stale reachable_stale) | reflexivity |
      reflexivity | by vm_compute | exact I | by vm_compute ].
Defined.

(** A lookup leaves the records of the other keys as they are. *)
Lemma get_records (s : state) (k : key) (create : producer) (l' : loc) :
  wf s -> l' < length (records s) -> stored s k <> Some l' ->
  records (snd (get k create s)) !! l' = records s !! l'.
Proof.
  intros H Hl' Hne.
  destruct (stored s k) as [l|] eqn:Hk.
  - destruct (wf_hit s k l H Hk) as (ex & nx & vl & Hrl & Hrv & Hrn & Hvl).
    clear H. assert (l <> l') by congruence.
    destruct s as [c dflt clk rs ps q cr]; unfold stored in *; cbn in *.
    destruct (Z.lt_ge_cases ex clk) as [Hexp|Hexp];
      destruct create as [e|w|], vl as [pv|];
      try destruct Hvl as ([o|] & rsx & Hpv);
      run; cbn; try done; by rewrite list_lookup_insert_ne.
  - clear H.
    destruct s as [c dflt clk rs ps q cr]; unfold stored in *; cbn in *.
    destruct create as [e|w|]; run; cbn; try done; by rewrite lookup_app_l.
Qed.

Lemma get_stored_other (s : state) (k k' : key) (create : producer) :
  k' <> k ->
  stored (lookup_ k create s) k' = stored s k' \/
  (stored s k = None /\ throws create = false /\
   stored (lookup_ k create s) k' = None).
Proof.
  intros Hkk. unfold lookup_. pose proof (get_store k create s) as Hc.
  destruct (stored s k) as [l|] eqn:Hk.
  - left. unfold stored. rewrite Hc. by apply LRUMapFacts.find_touch_ne.
  - destruct (throws create).
    { left. unfold stored. by rewrite Hc. }
    rewrite LRUMapFacts.set_absent in Hc by exact Hk.
    unfold stored at 1 3. rewrite Hc. cbn [LRUMap.entries].
    match goal with
    | |- context [LRUMap.find k' (take ?n ?es)] =>
        destruct (StoreFacts.find_take k' n es) as [Hf|Hf]; rewrite Hf
    end.
    + by right.
    + left. cbn. by destruct (String.eqb_spec k' k).
Qed.

(** X14. A lookup of one key leaves the entries of the other keys alone:
    the record stored for another key is the same afterwards, field by
    field, unless the lookup was a miss whose insertion evicted that key.
    A hit evicts nothing: the key it finds stays in the store too, and
    [dispose] is not called. *)
Theorem lookup_leaves_other_keys_alone (opts : option options) (s : state)
    (k k' : key) (create : producer) :
  reachable opts s ->
  k' <> k ->
  let s' := lookup_ k create s in
  (entry s' k' = entry s k' \/
   (stored s k = None /\ throws create = false /\ stored s' k' = None)) /\
  (forall l, stored s k = Some l ->
     stored s' k = Some l /\
     LRUMap.disposed (cache s') = LRUMap.disposed (cache s)).
Proof.
  intros H Hkk s'. apply reachable_wf in H. split.
  2:{ intros l Hk. unfold stored, s', lookup_. rewrite get_store, Hk.
      split; [apply LRUMapFacts.find_touch | done]. }
  destruct (get_stored_other s k k' create Hkk) as [He|Hev]; [|by right].
  left. fold s' in He. unfold entry. rewrite He.
  destruct (stored s k') as [l'|] eqn:Hk'; [|done]. cbn.
  apply get_records; [done| |].
  - destruct H as [Hst _ _ _]. by eapply StoreFacts.find_lt.
  - intros Hk. apply Hkk. destruct H as [(_ & _ & Hnd & _) _ _ _].
    by eapply StoreFacts.find_inj.
Qed.

(** A lookup of a in the cache holding a and b. *)
Lemma lookup_leaves_other_keys_alone_witness :
  let opts := two_keys_options in
  let s := two_keys in
  let k := "a" in
  let k' := "b" in
  let create := CreateAsync in
  let s' := lookup_ k create s in
  (entry s' k' = entry s k' \/
   (stored s k = None /\ throws create = false /\ stored s' k' = None)) /\
  (forall l, stored s k = Some l ->
     stored s' k = Some l /\
     LRUMap.disposed (cache s') = LRUMap.disposed (cache s)).
Proof.
  intros opts s k k' create.
  apply (lookup_leaves_other_keys_alone
           opts s k k' create);
    [ exact reachable_two_keys | done ].
Defined.

(** X15. [get] reads the store with [this.cache.get], which counts as a
    use: when the store is full, a lookup of a stored key, whatever comes of
    it, keeps that key in the store at the next insertion.  The key evicted
    then is the least recently used of the others, and [dispose] is called
    with its record. *)
Theorem hit_protects_from_eviction (opts : option options) (s : state)
    (k k' : key) (l : loc) (create create' : producer) :
  reachable opts s ->
  stored s k = Some l ->
  stored s k' = None ->
  throws create' = false ->
  2 <= length (LRUMap.entries (cache s)) ->
  length (LRUMap.entries (cache s)) = Z.to_nat (LRUMap.max (cache s)) ->
  let s1 := lookup_ k create s in
  let s2 := lookup_ k' create' s1 in
  stored s2 k = Some l /\
  is_Some (stored s2 k') /\
  length (LRUMap.entries (cache s2)) = length (LRUMap.entries (cache s)) /\
  exists victim,
    last (LRUMap.remove k (LRUMap.entries (cache s))) = Some victim /\
    stored s2 victim.1 = None /\
    LRUMap.disposed (cache s2) = LRUMap.disposed (cache s) ++ [victim.2].
Proof.
  intros H Hk Hk' Hc' Hlen Hfull s1 s2. apply reachable_wf in H.
  destruct H as [(_ & Hkeys & _ & _) _ _ _].
  assert (Hkk : k' <> k) by congruence.
  assert (Hc1 : cache s1 = LRUMap.touch k l (cache s)).
  { unfold s1, lookup_. by rewrite get_store, Hk. }
  assert (Hs1 : stored s1 k' = None).
  { unfold stored. rewrite Hc1. by rewrite LRUMapFacts.find_touch_ne. }
  assert (Hc2 : cache s2 = LRUMap.set k' (length (records s1)) (cache s1)).
  { unfold s2, lookup_. by rewrite get_store, Hs1, Hc'. }
  rewrite LRUMapFacts.set_absent in Hc2 by exact Hs1.
  rewrite Hc1 in Hc2. unfold LRUMap.touch in Hc2.
  cbn [LRUMap.entries LRUMap.max LRUMap.disposed] in Hc2.
  pose proof (StoreFacts.remove_length k l _ Hkeys Hk) as Hrl.
  pose proof (LRUMapFacts.find_remove_ne k k' (LRUMap.entries (cache s))
                (not_eq_sym Hkk)) as Hrk'.
  fold (stored s k') in Hrk'. rewrite Hk' in Hrk'.
  assert (Hnd : NoDup (LRUMap.remove k (LRUMap.entries (cache s))).*1).
  { eapply sublist_NoDup; [exact Hkeys|].
    apply fmap_sublist, StoreFacts.remove_sublist. }
  pose proof (StoreFacts.remove_key k (LRUMap.entries (cache s))) as Hnk.
  destruct (LRUMap.remove k (LRUMap.entries (cache s))) as [|victim es' _]
    using rev_ind; [cbn in Hrl; lia|].
  rewrite length_app in Hrl. cbn [length] in Hrl.
  rewrite <- Hfull in Hc2.
  match type of Hc2 with
  | context [take ?n (?a :: ?b :: es' ++ [victim])] =>
      destruct (take_drop_snoc (a :: b :: es') victim n) as [Ht Hd];
        [cbn [length]; etrans; [symmetry; exact Hrl|]; by rewrite Nat.add_1_r|];
      cbn [app] in Ht, Hd; rewrite Ht, Hd in Hc2
  end.
  cbn in Hc2.
  rewrite fmap_app in Hnd, Hnk. cbn in Hnd, Hnk.
  apply NoDup_app in Hnd as (_ & Hv & _).
  apply not_elem_of_app in Hnk as [Hnk Hkv].
  rewrite list_elem_of_singleton in Hkv.
  rewrite StoreFacts.find_app in Hrk'.
  destruct (LRUMap.find k' es') eqn:Hf; [done|]. cbn in Hrk'.
  destruct victim as [kv lv]. cbn in *.
  destruct (String.eqb_spec k' kv) as [->|Hkv']; [done|]. clear Hrk'.
  unfold stored. rewrite Hc2. cbn.
  destruct (String.eqb_spec k k') as [->|_]; [done|].
  rewrite String.eqb_refl.
  split; [done|]. split; [by rewrite String.eqb_refl|].
  split; [lia|]. exists (kv, lv). split; [by rewrite last_snoc|].
  split; [|done]. cbn.
  destruct (String.eqb_spec kv k') as [->|_]; [done|].
  destruct (String.eqb_spec kv k) as [->|_]; [done|].
  apply LRUMapFacts.find_None. intros Hin. apply (Hv kv Hin).
  by apply list_elem_of_singleton.
Qed.

(** The scenario of the specification: capacity 2, the keys a and b, a lookup
    of a, then c: b is evicted. *)
Lemma hit_protects_from_eviction_witness :
  let opts := two_keys_options in
  let s := two_keys in
  let k := "a" in
  let k' := "c" in
  let l := 0 in
  let create := CreateAsync in
  let create' := CreateReturns (JObj None (JStr "C")) in
  let s1 := lookup_ k create s in
  let s2 := lookup_ k' create' s1 in
  stored s2 k = Some l /\
  is_Some (stored s2 k') /\
  length (LRUMap.entries (cache s2)) = length (LRUMap.entries (cache s)) /\
  exists victim,
    last (LRUMap.remove k (LRUMap.entries (cache s))) = Some victim /\
    stored s2 victim.1 = None /\
    LRUMap.disposed (cache s2) = LRUMap.disposed (cache s) ++ [victim.2].
Proof.
  intros opts s k k' l create create'.
  apply (hit_protects_from_eviction
           opts s k k' l create create');
    [ exact reachable_two_keys | reflexivity | reflexivity | reflexivity |
      by vm_compute | reflexivity ].
Defined.

(** ** The content-type test *)

Module ProcessorFacts.
Import Processor.

Lemma substring_here (t b : string) :
  String.substring 0 (String.length t) (t +:+ b) = t.
Proof.
  induction t as [|c t IH]; simpl; [by destruct b | by rewrite IH].
Qed.

Lemma substring_at (a t b : string) :
  String.substring (String.length a) (String.length t) (a +:+ t +:+ b) = t.
Proof.
  induction a as [|c a IH]; [exact (substring_here t b) | simpl; exact IH].
Qed.

Lemma substring_prefix (m : nat) (s t : string) :
  String.substring 0 m s = t -> m = String.length t ->
  exists after, s = t +:+ after.
Proof.
  revert m t; induction s as [|c s IH]; intros m t.
  - destruct m; simpl; intros <- _; by exists "".
  - destruct m as [|m]; simpl.
    + intros <- _. by exists (String c s).
    + destruct t as [|c' t]; [done|]. intros [= -> Ht] [= ->].
      destruct (IH _ _ Ht eq_refl) as [b ->]. by exists b.
Qed.

Lemma substring_contains (n m : nat) (s t : string) :
  String.substring n m s = t -> m = String.length t ->
  exists before after, s = before +:+ t +:+ after.
Proof.
  revert n; induction s as [|c s IH]; intros n.
  - destruct n, m; simpl; intros <- _; by exists "", "".
  - destruct n as [|n].
    + intros Ht Hm. destruct (substring_prefix _ _ _ Ht Hm) as [b Hb].
      by exists "", b.
    + simpl. intros Ht Hm. destruct (IH n Ht Hm) as (a & b & ->).
      by exists (String c a), b.
Qed.

End ProcessorFacts.

(** X16. [isType(header, type)] holds exactly when [type] occurs in
    [header] as a run of consecutive characters, at any position: a content
    type followed by parameters, as in [application/json; charset=utf-8], is
    accepted; the comparison is exact, upper and lower case differ, and an
    empty [type] is found in every header. *)
Theorem isType_iff_contains (header type : string) :
  Processor.isType header type = true <->
  exists before after, header = before +:+ type +:+ after.
Proof.
  unfold Processor.isType, Processor.indexOf. split.
  - destruct (String.index 0 type header) as [n|] eqn:Hi; [|done]. intros _.
    apply String.index_correct1 in Hi.
    by eapply ProcessorFacts.substring_contains.
  - intros (a & b & ->).
    destruct (String.index 0 type (a +:+ type +:+ b)) as [n|] eqn:Hi;
      [apply Z.gtb_lt; lia|].
    exfalso. destruct type as [|c t].
    + apply String.index_correct4 in Hi. lia.
    + eapply (String.index_correct3 0 (String.length a));
        [exact Hi | done | lia | apply ProcessorFacts.substring_at].
Qed.
